(** * VitalSigns front end: risk encoding and alert cache synchronisation

    A shallow embedding of [frontend/src/utils/risk.ts], of the query hooks
    ([hooks/useAlerts.ts], [hooks/useRisks.ts], [hooks/useRegions.ts]) and of
    the index breakdown of [pages/RegionDetail.tsx]; then of the API client
    ([services/api.ts]), of the routes of [App.tsx] with the navigation of
    the two pages, and of the components [DiseaseHotspots] and
    [RiskSummaryCard].

    - JavaScript numbers are the kernel's binary64 floats ([PrimFloat.float]);
      their specification ([Prim2SF], [SpecFloat]) gives every number an
      exact rational value, an infinity or NaN.
    - Object literals used as lookup tables are finite maps of own
      properties whose reads continue into [Object.prototype].
    - The query cache is a finite map from query keys to queries. *)

From Stdlib Require Import ZArith QArith Qpower Qround Floats Lia Lqa Bool Ascii.
From stdpp Require Import base option list gmap strings pretty.

Local Open Scope Z_scope.

(** ** Risk levels ([types/index.ts]) *)

Inductive RiskLevel := minimal | low | moderate | high | critical.

#[global] Instance RiskLevel_eq_dec : EqDecision RiskLevel.
Proof. solve_decision. Defined.

(** The string that a level is at run time. *)
Definition level_name (l : RiskLevel) : string :=
  match l with
  | minimal => "minimal"
  | low => "low"
  | moderate => "moderate"
  | high => "high"
  | critical => "critical"
  end.

(** Severity rank, [minimal < low < moderate < high < critical]. *)
Definition severity (l : RiskLevel) : Z :=
  match l with
  | minimal => 0
  | low => 1
  | moderate => 2
  | high => 3
  | critical => 4
  end.

(** ** Property reads on object literals *)

Module Js.

(** What a read of a colour table can produce. *)
Inductive value :=
| Undefined
| Str (s : string)
| Inherited (name : string).

(** What the server's JSON can put where a level or a disease type is
    expected: nothing, [null] or a string. *)
Inductive key :=
| KUndefined
| KNull
| KStr (s : string).

Definition toPropertyKey (k : key) : string :=
  match k with
  | KUndefined => "undefined"
  | KNull => "null"
  | KStr s => s
  end.

(** The members every object literal inherits from [Object.prototype]. *)
Definition object_prototype : gset string :=
  {[ "constructor"; "hasOwnProperty"; "isPrototypeOf";
     "propertyIsEnumerable"; "toLocaleString"; "toString"; "valueOf";
     "__proto__"; "__defineGetter__"; "__defineSetter__";
     "__lookupGetter__"; "__lookupSetter__" ]}.

(** [table[k]]: own properties first, then the prototype. *)
Definition get (table : gmap string string) (k : string) : value :=
  match table !! k with
  | Some s => Str s
  | None => if bool_decide (k ∈ object_prototype) then Inherited k else Undefined
  end.

Definition truthy (v : value) : bool :=
  match v with
  | Undefined => false
  | Str s => negb (String.eqb s "")
  | Inherited _ => true
  end.

(** [a || b] *)
Definition or (a b : value) : value := if truthy a then a else b.

End Js.

(** ** Colour tables and getters ([utils/risk.ts]) *)

Definition RISK_COLORS : gmap string string :=
  list_to_map
    [ ("minimal", "#10B981"); ("low", "#84CC16"); ("moderate", "#F59E0B");
      ("high", "#F97316"); ("critical", "#EF4444") ].

Definition DISEASE_COLORS : gmap string string :=
  list_to_map
    [ ("malaria", "#8B5CF6"); ("cholera", "#06B6D4"); ("measles", "#EC4899");
      ("dengue", "#F97316"); ("respiratory", "#6366F1");
      ("typhoid", "#14B8A6"); ("ebola", "#DC2626"); ("covid", "#64748B") ].

Definition getRiskColor (level : Js.key) : Js.value :=
  Js.or (Js.get RISK_COLORS (Js.toPropertyKey level))
        (Js.get RISK_COLORS "minimal").

Definition getDiseaseColor (disease : string) : Js.value :=
  Js.or (Js.get DISEASE_COLORS disease) (Js.Str "#64748B").

(** ** Scores ([utils/risk.ts], [pages/RegionDetail.tsx])

    A [number] is a binary64 float; [a >= b] is false as soon as one side
    is NaN, which is what [PrimFloat.leb] does. *)

Definition number := float.

Definition ge (a b : number) : bool := PrimFloat.leb b a.
Definition le (a b : number) : bool := PrimFloat.leb a b.
Definition lt (a b : number) : bool := PrimFloat.ltb a b.

Definition getRiskLevelFromScore (score : number) : RiskLevel :=
  if ge score 80%float then critical
  else if ge score 60%float then high
  else if ge score 40%float then moderate
  else if ge score 20%float then low
  else minimal.

Definition getMarkerSize (riskScore : number) : number :=
  (8 + (riskScore / 100) * 16)%float.

(** The conditional chain of the index breakdown in [RegionDetail]:
    [item.value >= 80 ? 'critical' : item.value >= 60 ? 'high' : ...]. *)
Definition indexBreakdown_level (value : number) : RiskLevel :=
  if ge value 80%float then critical else
  if ge value 60%float then high else
  if ge value 40%float then moderate else
  if ge value 20%float then low else minimal.

(** The literal [79.9] denotes the binary64 number nearest to it. *)
Definition lit_79_9 : number := 0x1.3f9999999999ap+6%float.

(** ** Exact values of numbers

    Every binary64 number is NaN, an infinity or a rational [m * 2^e]. *)

Module Binary64.

Definition pow2 (e : Z) : Q := (2 # 1) ^ e.

Inductive xreal :=
| XNaN
| XInf (negative : bool)
| XFin (q : Q).

Definition F2Q (s : bool) (m : positive) (e : Z) : Q :=
  (inject_Z (cond_Zopp s (Z.pos m)) * pow2 e)%Q.

Definition SF2X (x : spec_float) : xreal :=
  match x with
  | S754_nan => XNaN
  | S754_infinity s => XInf s
  | S754_zero _ => XFin 0
  | S754_finite s m e => XFin (F2Q s m e)
  end.

Definition value (x : number) : xreal := SF2X (Prim2SF x).

Definition xcompare (a b : xreal) : option comparison :=
  match a, b with
  | XNaN, _ | _, XNaN => None
  | XInf s1, XInf s2 =>
      Some (match s1, s2 with
            | true, true | false, false => Eq
            | true, false => Lt
            | false, true => Gt
            end)
  | XInf s, XFin _ => Some (if s then Lt else Gt)
  | XFin _, XInf s => Some (if s then Gt else Lt)
  | XFin p, XFin q => Some (p ?= q)%Q
  end.

Definition xle (a b : xreal) : Prop :=
  match xcompare a b with Some (Lt | Eq) => True | _ => False end.

Definition xlt (a b : xreal) : Prop :=
  match xcompare a b with Some Lt => True | _ => False end.

(** [q <= score] and [score < q] on exact values; both fail on NaN. *)
Definition at_least (q : Q) (s : number) : Prop := xle (XFin q) (value s).
Definition below (q : Q) (s : number) : Prop := xlt (value s) (XFin q).

(** [c] is the number whose exact value is the rational [q]. *)
Definition denotes (c : number) (q : Q) : Prop :=
  match value c with XFin q' => (q' == q)%Q | _ => False end.

Definition canonical (m : positive) (e : Z) : Prop :=
  canonical_mantissa prec emax m e = true.

(** *** Rounding, as [SpecFloat] computes it

    [inside t m l]: the rational [t] lies in the unit interval that starts
    at the integer [m], at the place the location [l] says: on [m], below
    the middle, on the middle or above it. *)
Definition inside (t : Q) (m : Z) (l : location) : Prop :=
  match l with
  | loc_Exact => (t == inject_Z m)%Q
  | loc_Inexact Lt => (inject_Z m < t ∧ t < inject_Z m + (1 # 2))%Q
  | loc_Inexact Eq => (t == inject_Z m + (1 # 2))%Q
  | loc_Inexact Gt => (inject_Z m + (1 # 2) < t ∧ t < inject_Z m + 1)%Q
  end.

(** [m * 2^E] has the shape of a binary64 number before the last rounding
    step: at most 53 bits, and exactly 53 above the least exponent. *)
Definition normal_at (m E : Z) : Prop :=
  -1074 <= E ∧ 0 <= m < 2 ^ 53 ∧ (-1074 < E → 2 ^ 52 <= m).

(** The number of sign [s] and magnitude [k * 2^E], for [k <= 2^53]:
    renormalised when [k] is [2^53], an infinity past the largest
    exponent. *)
Definition pack (s : bool) (k E : Z) : spec_float :=
  if k =? 0 then S754_zero s
  else if k <? 2 ^ 53 then
    if E <=? 971 then S754_finite s (Z.to_pos k) E else S754_infinity s
  else
    if E + 1 <=? 971 then S754_finite s (Z.to_pos (2 ^ 52)) (E + 1)
    else S754_infinity s.

(** The exact value [k * 2^E]. *)
Definition rv (k E : Z) : Q := (inject_Z k * pow2 E)%Q.

(** The magnitude of [x] when its sign bit is [s]. *)
Definition sgn (s : bool) (x : Q) : Q := if s then (- x)%Q else x.

(** [r] is the binary64 rounding of the rational [v]: the magnitude of [v]
    is located at the exponent of its binade and rounded to the nearest
    integer there, to the even one on a tie. *)
Definition rounds (v : Q) (r : spec_float) : Prop :=
  ∃ s m E l,
    (0 <= sgn s v)%Q ∧ normal_at m E ∧
    inside (sgn s v * pow2 (- E)) m l ∧
    r = pack s (round_nearest_even m l) E.

(** The constants of [getMarkerSize], as [Prim2SF] gives them. *)
Definition c16 : spec_float := S754_finite false 4503599627370496 (-48).
Definition c100 : spec_float := S754_finite false 7036874417766400 (-46).
Definition c8 : spec_float := S754_finite false 4503599627370496 (-49).

(** The rational value of a finite number. *)
Definition fin_value (x : spec_float) : option Q :=
  match x with
  | S754_zero _ => Some 0%Q
  | S754_finite s m e => Some (F2Q s m e)
  | _ => None
  end.

End Binary64.

(** ** The query cache, as the hooks use TanStack Query

    TanStack Query is a dependency of the front end, not part of it; this
    module states the behaviour of the library that the hooks rely on:
    [invalidateQueries] marks every query whose key the filter key matches
    as a prefix, a stale query is fetched again when it is read, and a
    mutation runs [onSuccess] when its request resolves and [onError] when
    it is rejected.

    A query key is an array of strings, numbers, [undefined] and flat
    parameter objects.  The cache maps each key to one query. *)

Module ReactQuery.

Inductive atom :=
| AUndefined
| AString (s : string)
| ANumber (n : Z).

Inductive key_part :=
| Atom (a : atom)
| Params (fields : gmap string atom).

Definition query_key := list key_part.

#[global] Instance atom_eq_dec : EqDecision atom.
Proof. solve_decision. Defined.

#[global] Instance atom_countable : Countable atom.
Proof.
  refine (inj_countable'
    (λ a, match a with
          | AUndefined => inl ()
          | AString s => inr (inl s)
          | ANumber n => inr (inr n)
          end)
    (λ x, match x with
          | inl _ => AUndefined
          | inr (inl s) => AString s
          | inr (inr n) => ANumber n
          end) _).
  by intros [].
Defined.

#[global] Instance key_part_eq_dec : EqDecision key_part.
Proof. solve_decision. Defined.

#[global] Instance key_part_countable : Countable key_part.
Proof.
  refine (inj_countable'
    (λ p, match p with Atom a => inl a | Params f => inr f end)
    (λ x, match x with inl a => Atom a | inr f => Params f end) _).
  by intros [].
Defined.

(** [partialMatchKey(a, b)] on one element: equal atoms, or every field
    of the filter's object present with the same value. *)
Definition part_matches (a b : key_part) : bool :=
  match a, b with
  | Atom x, Atom y => bool_decide (x = y)
  | Params pa, Params pb => bool_decide (pb ⊆ pa)
  | _, _ => false
  end.

(** [partialMatchKey(a, b)] on arrays: every index of the filter [b]
    matches in [a]; an index past the end of [a] reads [undefined]. *)
Fixpoint partialMatchKey (a b : query_key) : bool :=
  match b with
  | [] => true
  | pb :: b' =>
      part_matches (hd (Atom AUndefined) a) pb && partialMatchKey (tl a) b'
  end.

(** The first element of a key names its resource family. *)
Definition in_family (family : string) (k : query_key) : Prop :=
  head k = Some (Atom (AString family)).

Inductive outcome (R : Type) :=
| Resolved (r : R)
| Rejected.
Arguments Resolved {R} r.
Arguments Rejected {R}.

Record query_options := QueryOptions {
  queryKey : query_key;
  refetchInterval : option Z;
  enabled : bool
}.

Section Cache.
Context {Data : Type}.

(** [expired]: the stale time has run out since the last fetch. *)
Record query := Query {
  data : option Data;
  expired : bool;
  isInvalidated : bool
}.

Definition invalidate (q : query) : query :=
  {| data := data q; expired := expired q; isInvalidated := true |}.

Definition isStale (q : query) : bool :=
  isInvalidated q || negb (bool_decide (is_Some (data q))) || expired q.

Definition invalidateQueries (filter : query_key)
    (c : gmap query_key query) : gmap query_key query :=
  map_imap
    (λ k q, Some (if partialMatchKey k filter then invalidate q else q)) c.

(** A read of key [k] goes to the network when the key has no query
    yet or its query is stale. *)
Definition needsFetch (c : gmap query_key query) (k : query_key) : bool :=
  match c !! k with
  | Some q => isStale q
  | None => true
  end.

(** What a read through [useQuery o] settles to when the network answers
    [response]: an enabled query that needs it is fetched and the fetched
    value replaces the entry; otherwise the entry is served as it is. *)
Definition read (o : query_options) (response : Data)
    (c : gmap query_key query) : option Data * gmap query_key query :=
  if enabled o && needsFetch c (queryKey o)
  then (Some response,
        <[queryKey o := Query (Some response) false false]> c)
  else (c !! queryKey o ≫= data, c).

Record mutation_options (V R : Type) := MutationOptions {
  mutationFn : V → outcome R;
  onSuccess : option (gmap query_key query → gmap query_key query);
  onError : option (gmap query_key query → gmap query_key query);
  onSettled : option (gmap query_key query → gmap query_key query)
}.
Arguments mutationFn {V R} _ _.
Arguments onSuccess {V R} _.
Arguments onError {V R} _.
Arguments onSettled {V R} _.

Definition run (cb : option (gmap query_key query → gmap query_key query))
    (c : gmap query_key query) : gmap query_key query :=
  match cb with
  | Some f => f c
  | None => c
  end.

(** [mutate]: the request, then the callbacks of its outcome. *)
Definition mutate {V R} (o : mutation_options V R) (v : V)
    (c : gmap query_key query) : outcome R * gmap query_key query :=
  match mutationFn o v with
  | Resolved r => (Resolved r, run (onSettled o) (run (onSuccess o) c))
  | Rejected => (Rejected, run (onSettled o) (run (onError o) c))
  end.

End Cache.

Arguments query : clear implicits.
Arguments mutation_options : clear implicits.
Arguments MutationOptions {Data V R}.
Arguments mutationFn {Data V R} _ _.
Arguments onSuccess {Data V R} _.
Arguments onError {Data V R} _.
Arguments onSettled {Data V R} _.

End ReactQuery.

(** ** The hooks ([hooks/useAlerts.ts], [hooks/useRisks.ts],
    [hooks/useRegions.ts]) *)

Module Hooks.
Import ReactQuery.

Definition str (s : string) : key_part := Atom (AString s).

(** An optional string or number argument in a key. *)
Definition opt_str (o : option string) : key_part :=
  Atom (from_option AString AUndefined o).
Definition opt_num (o : option Z) : key_part :=
  Atom (from_option ANumber AUndefined o).
(** An optional parameter object in a key. *)
Definition opt_params (o : option (gmap string atom)) : key_part :=
  from_option Params (Atom AUndefined) o.

(** [!!s] and [!!n] *)
Definition truthy_string (s : string) : bool := negb (String.eqb s "").
Definition truthy_number (n : Z) : bool := negb (n =? 0).

Definition useAlerts (params : option (gmap string atom)) : query_options :=
  {| queryKey := [str "alerts"; opt_params params];
     refetchInterval := Some (60 * 1000);
     enabled := true |}.

Definition useActiveAlerts (severity : option string) (limit : option Z)
    : query_options :=
  {| queryKey := [str "alerts"; str "active"; opt_str severity; opt_num limit];
     refetchInterval := Some (60 * 1000);
     enabled := true |}.

Definition useAlert (id : Z) : query_options :=
  {| queryKey := [str "alerts"; Atom (ANumber id)];
     refetchInterval := None;
     enabled := truthy_number id |}.

Definition useRiskSummary (continent level : option string) : query_options :=
  {| queryKey := [str "risks"; str "summary"; opt_str continent; opt_str level];
     refetchInterval := Some (5 * 60 * 1000);
     enabled := true |}.

Definition useRiskMap (level : option string) : query_options :=
  {| queryKey := [str "risks"; str "map"; opt_str level];
     refetchInterval := Some (5 * 60 * 1000);
     enabled := true |}.

Definition useRegionRisks (regionCode : string) : query_options :=
  {| queryKey := [str "risks"; str "region"; str regionCode];
     refetchInterval := None;
     enabled := truthy_string regionCode |}.

Definition useDiseaseRisks (diseaseType : string) (riskLevel : option string)
    (limit : option Z) : query_options :=
  {| queryKey := [str "risks"; str "disease"; str diseaseType;
                  opt_str riskLevel; opt_num limit];
     refetchInterval := None;
     enabled := truthy_string diseaseType |}.

Definition useRegions (params : option (gmap string atom)) : query_options :=
  {| queryKey := [str "regions"; opt_params params];
     refetchInterval := None;
     enabled := true |}.

Definition useRegion (code : string) : query_options :=
  {| queryKey := [str "regions"; str code];
     refetchInterval := None;
     enabled := truthy_string code |}.

Definition useRegionChildren (code : string) : query_options :=
  {| queryKey := [str "regions"; str code; str "children"];
     refetchInterval := None;
     enabled := truthy_string code |}.

(** The two alert mutations.  [alertsApi] posts to the remote service,
    whose answer is not the client's to decide: it is the parameter
    [server]. *)
Inductive request :=
| Acknowledge (id : Z) (notes : option string)
| Resolve (id : Z) (resolution_notes : option string)
          (was_false_positive : option bool).

Section Mutations.
Context {Data Alert : Type}.
Variable server : request → outcome Alert.

Definition useAcknowledgeAlert
    : mutation_options Data (Z * option string) Alert :=
  {| mutationFn := λ '(id, notes), server (Acknowledge id notes);
     onSuccess := Some (invalidateQueries [str "alerts"]);
     onError := None;
     onSettled := None |}.

Definition useResolveAlert
    : mutation_options Data (Z * option string * option bool) Alert :=
  {| mutationFn := λ '(id, resolution_notes, was_false_positive),
       server (Resolve id resolution_notes was_false_positive);
     onSuccess := Some (invalidateQueries [str "alerts"]);
     onError := None;
     onSettled := None |}.
End Mutations.

(** What an alert mutation that succeeded leaves of a cache [c]: every
    query of the alerts family is invalidated, so that a read of its key
    through an enabled [useQuery] fetches, and every other query is as it
    was. *)
Definition alerts_invalidated {Data}
    (c c' : gmap query_key (query Data)) : Prop :=
  ∀ k,
    (in_family "alerts" k →
       c' !! k = invalidate <$> c !! k ∧
       needsFetch c' k = true ∧
       ∀ o response,
         queryKey o = k → enabled o = true →
         (read o response c').1 = Some response) ∧
    (¬ in_family "alerts" k → c' !! k = c !! k).

(** A small cache and a remote service, to run the hooks on: the service
    accepts every acknowledge and rejects every resolve. *)
Definition sample_cache : gmap query_key (query string) :=
  list_to_map
    [ (queryKey (useAlerts None), Query (Some "3 alerts") false false);
      (queryKey (useActiveAlerts (Some "critical") (Some 5)),
       Query (Some "1 active alert") false false);
      (queryKey (useRiskMap None), Query (Some "map") false false);
      (queryKey (useRegion "KE"), Query (Some "Kenya") false false) ].

Definition sample_server (r : request) : outcome string :=
  match r with
  | Acknowledge _ _ => Resolved "acknowledged"
  | Resolve _ _ _ => Rejected
  end.

End Hooks.

(** ** The other getters of [utils/risk.ts] *)

Definition RISK_BG_COLORS : gmap string string :=
  list_to_map
    [ ("minimal", "rgba(16, 185, 129, 0.2)");
      ("low", "rgba(132, 204, 22, 0.2)");
      ("moderate", "rgba(245, 158, 11, 0.2)");
      ("high", "rgba(249, 115, 22, 0.2)");
      ("critical", "rgba(239, 68, 68, 0.2)") ].

Definition SEVERITY_COLORS : gmap string string :=
  list_to_map
    [ ("info", "#3B82F6"); ("warning", "#F59E0B"); ("urgent", "#F97316");
      ("critical", "#EF4444") ].

Definition getRiskBgColor (level : Js.key) : Js.value :=
  Js.or (Js.get RISK_BG_COLORS (Js.toPropertyKey level))
        (Js.get RISK_BG_COLORS "minimal").

(** The table [labels] of [getRiskLabel]. *)
Definition labels : gmap string string :=
  list_to_map
    [ ("minimal", "Minimal"); ("low", "Low"); ("moderate", "Moderate");
      ("high", "High"); ("critical", "Critical") ].

Definition getRiskLabel (level : Js.key) : Js.value :=
  Js.or (Js.get labels (Js.toPropertyKey level)) (Js.Str "Unknown").

Definition getSeverityColor (severity : Js.key) : Js.value :=
  Js.or (Js.get SEVERITY_COLORS (Js.toPropertyKey severity))
        (Js.get SEVERITY_COLORS "info").

(** ** [formatRiskScore] ([utils/risk.ts])

    [score.toFixed(1)], as ECMA-262 defines [Number.prototype.toFixed] on
    the exact value of the number: NaN and the infinities print their
    names; otherwise the sign is set apart and, below [10^21], the
    magnitude [a] is printed as the integer [n] for which [n / 10 - a] is
    closest to zero (the larger [n] when there are two), with a point
    before its last digit.  From [10^21] on the standard hands the
    magnitude to [ToString], which prints it with an exponent; that text is
    not spelled out here. *)

Module NumberFormat.
Import Binary64.

Inductive formatted :=
| Text (s : string)
| Large (sign : string) (magnitude : Q).

(** The integer [n] for which [n / 10 - a] is closest to zero, the larger
    one of two. *)
Definition tenths (a : Q) : Z := Qfloor (10 * a + (1 # 2)).

(** The digits of [n] with a point before the last one, and a zero in
    front when there is one digit only. *)
Definition point1 (n : Z) : string :=
  let m := pretty n in
  let m := if (String.length m <=? 1)%nat then "0" +:+ m else m in
  let k := String.length m in
  String.substring 0 (k - 1) m +:+ "." +:+ String.substring (k - 1) 1 m.

Definition toFixed1 (x : number) : formatted :=
  match value x with
  | XNaN => Text "NaN"
  | XInf false => Text "Infinity"
  | XInf true => Text "-Infinity"
  | XFin q =>
      let negative := negb (Qle_bool 0 q) in
      let s := if negative then "-" else "" in
      let a := if negative then (- q)%Q else q in
      if Qle_bool (10 ^ 21) a then Large s a
      else Text (s +:+ point1 (tenths a))
  end.

Definition formatRiskScore (score : number) : formatted := toFixed1 score.

(** The band of a level on the scale of tenths: the displayed numbers
    from its threshold up to the next threshold. *)
Definition band_tenths (l : RiskLevel) : Z * option Z :=
  match l with
  | minimal => (0, Some 200)
  | low => (200, Some 400)
  | moderate => (400, Some 600)
  | high => (600, Some 800)
  | critical => (800, None)
  end.

End NumberFormat.

(** ** CSS colours

    What the notation [#RRGGBB] denotes, to relate the table of background
    colours to the table of colours: the three channels, and the
    [rgba(r, g, b, alpha)] notation of the same colour at an opacity. *)

Module Css.

Definition hex_digit (c : ascii) : option N :=
  let n := N_of_ascii c in
  if (48 <=? n)%N && (n <=? 57)%N then Some (n - 48)%N
  else if (65 <=? n)%N && (n <=? 70)%N then Some (n - 55)%N
  else if (97 <=? n)%N && (n <=? 102)%N then Some (n - 87)%N
  else None.

Definition channel (h l : ascii) : option N :=
  a ← hex_digit h; b ← hex_digit l; Some (16 * a + b)%N.

Definition rgba (hex alpha : string) : option string :=
  match hex with
  | String "#" (String r1 (String r2 (String g1 (String g2
      (String b1 (String b2 EmptyString)))))) =>
      r ← channel r1 r2; g ← channel g1 g2; b ← channel b1 b2;
      Some ("rgba(" +:+ pretty r +:+ ", " +:+ pretty g +:+ ", " +:+ pretty b
            +:+ ", " +:+ alpha +:+ ")")
  | _ => None
  end.

(** The same colour at opacity 0.2, for what a getter returns. *)
Definition tint (v : Js.value) : Js.value :=
  match v with
  | Js.Str hex => from_option Js.Str Js.Undefined (rgba hex "0.2")
  | _ => v
  end.

End Css.

(** ** The requests of the API client ([services/api.ts])

    A request is what [api.get] and [api.post] hand to axios: the method,
    the path under the base URL, the query parameters and the JSON body.
    An object literal is the finite map of its fields that are not
    [undefined], which is what reaches the wire (and the hash of a query
    key): a field that is [undefined] is left out of a query string and of
    a JSON text. *)

Module Api.
Import ReactQuery.

Inductive http_method := GET | POST.

Inductive json :=
| JString (s : string)
| JBoolean (b : bool).

Record http_request := HttpRequest {
  method : http_method;
  url : string;
  params : gmap string atom;
  body : option (gmap string json)
}.

(** [{ k1: v1, ... }] where a value may be [undefined]. *)
Definition object {V} (fields : list (string * option V)) : gmap string V :=
  list_to_map (omap (λ kv, pair kv.1 <$> kv.2) fields).

(** [api.get(url, { params })]; [params] may be [undefined]. *)
Definition get (url : string) (params : option (gmap string atom))
    : http_request :=
  {| method := GET; url := url; params := default ∅ params; body := None |}.

(** [api.post(url, data)] *)
Definition post (url : string) (data : gmap string json) : http_request :=
  {| method := POST; url := url; params := ∅; body := Some data |}.

(** [`${id}`] for an integer identifier below [10^21]: its decimal
    digits. *)
Definition number_to_string (id : Z) : string := pretty id.

(** [level || 'country']: the empty string is falsy. *)
Definition or_string (o : option string) (d : string) : string :=
  match o with
  | Some s => if Hooks.truthy_string s then s else d
  | None => d
  end.

Module regionsApi.
Definition getAll (params : option (gmap string atom)) : http_request :=
  get "/regions" params.
Definition getById (code : string) : http_request :=
  get ("/regions/" +:+ code) None.
Definition getChildren (code : string) : http_request :=
  get ("/regions/" +:+ code +:+ "/children") None.
End regionsApi.

Module risksApi.
Definition getSummary (params : option (gmap string atom)) : http_request :=
  get "/risks/summary" params.
Definition getMap (level : option string) : http_request :=
  get "/risks/map"
    (Some (object [("level", Some (AString (or_string level "country")))])).
Definition getRegionRisks (regionCode : string) : http_request :=
  get ("/risks/regions/" +:+ regionCode) None.
Definition getDiseaseRisks (diseaseType : string)
    (params : option (gmap string atom)) : http_request :=
  get ("/risks/diseases/" +:+ diseaseType) params.
End risksApi.

Module alertsApi.
Definition getAll (params : option (gmap string atom)) : http_request :=
  get "/alerts" params.
Definition getActive (params : option (gmap string atom)) : http_request :=
  get "/alerts/active" params.
Definition getById (id : Z) : http_request :=
  get ("/alerts/" +:+ number_to_string id) None.
Definition acknowledge (id : Z) (notes : option string) : http_request :=
  post ("/alerts/" +:+ number_to_string id +:+ "/acknowledge")
       (object [("notes", JString <$> notes)]).
Definition resolve (id : Z) (params : gmap string json) : http_request :=
  post ("/alerts/" +:+ number_to_string id +:+ "/resolve") params.
End alertsApi.

End Api.

(** ** Calls of the query hooks

    The parameter objects of [useAlerts] and [useRegions], field by field,
    and every call of a query hook with its arguments; [options] is the
    object the call passes to [useQuery] and [queryFn] the request its
    [queryFn] sends. *)

Module HookCalls.
Import ReactQuery Hooks Api.

Module AlertsParams.
Record t := Make {
  status : option string;
  severity : option string;
  alert_type : option string;
  region_code : option string;
  limit : option Z
}.
Definition fields (p : t) : gmap string atom :=
  object [ ("status", AString <$> status p);
           ("severity", AString <$> severity p);
           ("alert_type", AString <$> alert_type p);
           ("region_code", AString <$> region_code p);
           ("limit", ANumber <$> limit p) ].
End AlertsParams.

Module RegionsParams.
Record t := Make {
  level : option string;
  continent : option string;
  parent_code : option string;
  skip : option Z;
  limit : option Z
}.
Definition fields (p : t) : gmap string atom :=
  object [ ("level", AString <$> level p);
           ("continent", AString <$> continent p);
           ("parent_code", AString <$> parent_code p);
           ("skip", ANumber <$> skip p);
           ("limit", ANumber <$> limit p) ].
End RegionsParams.

Inductive hook_call :=
| UseAlerts (params : option AlertsParams.t)
| UseActiveAlerts (severity : option string) (limit : option Z)
| UseAlert (id : Z)
| UseRiskSummary (continent level : option string)
| UseRiskMap (level : option string)
| UseRegionRisks (regionCode : string)
| UseDiseaseRisks (diseaseType : string) (riskLevel : option string)
                  (limit : option Z)
| UseRegions (params : option RegionsParams.t)
| UseRegion (code : string)
| UseRegionChildren (code : string).

Definition options (h : hook_call) : query_options :=
  match h with
  | UseAlerts params => useAlerts (AlertsParams.fields <$> params)
  | UseActiveAlerts severity limit => useActiveAlerts severity limit
  | UseAlert id => useAlert id
  | UseRiskSummary continent level => useRiskSummary continent level
  | UseRiskMap level => useRiskMap level
  | UseRegionRisks regionCode => useRegionRisks regionCode
  | UseDiseaseRisks diseaseType riskLevel limit =>
      useDiseaseRisks diseaseType riskLevel limit
  | UseRegions params => useRegions (RegionsParams.fields <$> params)
  | UseRegion code => useRegion code
  | UseRegionChildren code => useRegionChildren code
  end.

Definition queryFn (h : hook_call) : http_request :=
  match h with
  | UseAlerts params => alertsApi.getAll (AlertsParams.fields <$> params)
  | UseActiveAlerts severity limit =>
      alertsApi.getActive
        (Some (object [ ("severity", AString <$> severity);
                        ("limit", ANumber <$> limit) ]))
  | UseAlert id => alertsApi.getById id
  | UseRiskSummary continent level =>
      risksApi.getSummary
        (Some (object [ ("continent", AString <$> continent);
                        ("level", AString <$> level) ]))
  | UseRiskMap level => risksApi.getMap level
  | UseRegionRisks regionCode => risksApi.getRegionRisks regionCode
  | UseDiseaseRisks diseaseType riskLevel limit =>
      risksApi.getDiseaseRisks diseaseType
        (Some (object [ ("risk_level", AString <$> riskLevel);
                        ("limit", ANumber <$> limit) ]))
  | UseRegions params => regionsApi.getAll (RegionsParams.fields <$> params)
  | UseRegion code => regionsApi.getById code
  | UseRegionChildren code => regionsApi.getChildren code
  end.

(** The request of an alert mutation: [mutationFn] of
    [useAcknowledgeAlert] and of [useResolveAlert]. *)
Definition mutation_request (r : request) : http_request :=
  match r with
  | Acknowledge id notes => alertsApi.acknowledge id notes
  | Resolve id resolution_notes was_false_positive =>
      alertsApi.resolve id
        (object [ ("resolution_notes", JString <$> resolution_notes);
                  ("was_false_positive", JBoolean <$> was_false_positive) ])
  end.

End HookCalls.

(** ** Navigation ([App.tsx], [pages/Dashboard.tsx],
    [pages/RegionDetail.tsx])

    React Router is a dependency; this module states how it matches the
    path of a location against the route paths of [App]: the pattern and
    the path are cut at every [/], slashes at the end of the path are
    ignored, a static segment matches the same segment whatever the case of
    its letters, and [:name] matches one segment that is not empty.
    Percent-decoding of the path is left out, so the model is that of the
    library on paths without [%]. *)

Module Router.

(** [s.split('/')] *)
Fixpoint split (s : string) : list string :=
  match s with
  | EmptyString => [EmptyString]
  | String c s' =>
      if Ascii.eqb c "/" then EmptyString :: split s'
      else match split s' with
           | seg :: segs => String c seg :: segs
           | [] => [String c EmptyString]
           end
  end.

(** [parsePath(to).pathname]: what comes before the first [?] or [#]. *)
Fixpoint pathname (to : string) : string :=
  match to with
  | EmptyString => EmptyString
  | String c s =>
      if Ascii.eqb c "?" || Ascii.eqb c "#" then EmptyString
      else String c (pathname s)
  end.

Definition lower (c : ascii) : ascii :=
  let n := nat_of_ascii c in
  if (65 <=? n)%nat && (n <=? 90)%nat then ascii_of_nat (n + 32) else c.

Fixpoint lowercase (s : string) : string :=
  match s with
  | EmptyString => EmptyString
  | String c s' => String (lower c) (lowercase s')
  end.

(** The segments without the empty ones that end the list. *)
Fixpoint strip_trailing (segs : list string) : list string :=
  match segs with
  | [] => []
  | s :: segs' =>
      match strip_trailing segs' with
      | [] => if String.eqb s "" then [] else [s]
      | r => s :: r
      end
  end.

Inductive segment :=
| Static (s : string)
| Dynamic (name : string).

Definition compile (path : string) : list segment :=
  (λ s, match s with
        | String ":" name => Dynamic name
        | _ => Static s
        end) <$> filter (λ s, s ≠ "") (split path).

Fixpoint match_segments (pattern : list segment) (segs : list string)
    : option (gmap string string) :=
  match pattern, segs with
  | [], [] => Some ∅
  | Static s :: pattern', seg :: segs' =>
      if String.eqb (lowercase s) (lowercase seg)
      then match_segments pattern' segs' else None
  | Dynamic name :: pattern', seg :: segs' =>
      if String.eqb seg "" then None
      else <[name := seg]> <$> match_segments pattern' segs'
  | _, _ => None
  end.

(** [matchPath({ path, end: true }, pathname)] *)
Definition matchPath (path pathname : string) : option (gmap string string) :=
  match split pathname with
  | EmptyString :: segs => match_segments (compile path) (strip_trailing segs)
  | _ => None
  end.

(** The element [App] renders at a location: [useParams] in [RegionDetail]
    reads [code] from the match. *)
Inductive page :=
| DashboardPage
| RegionDetailPage (code : option string).

Definition App (pathname : string) : option page :=
  match matchPath "/" pathname with
  | Some _ => Some DashboardPage
  | None =>
      match matchPath "/regions/:code" pathname with
      | Some params => Some (RegionDetailPage (params !! "code"))
      | None => None
      end
  end.

(** [navigate(to)] and what is then rendered. *)
Definition navigate (to : string) : option page := App (pathname to).

(** Characters that a browser leaves as they are in a path and that do not
    separate anything: letters, digits, [-] and [_]. *)
Definition plain_char (c : ascii) : bool :=
  let n := nat_of_ascii c in
  ((48 <=? n) && (n <=? 57) || (65 <=? n) && (n <=? 90)
   || (97 <=? n) && (n <=? 122) || (n =? 45) || (n =? 95))%nat.

Fixpoint plain (s : string) : bool :=
  match s with
  | EmptyString => true
  | String c s' => plain_char c && plain s'
  end.

End Router.

(** ** Pages and components *)

(** [pages/Dashboard.tsx]: the targets of [navigate]. *)
Module Dashboard.
Import Api.

Definition handleRegionClick (regionCode : string) : string :=
  "/regions/" +:+ regionCode.

Definition handleAlertClick (alertId : Z) : string :=
  "/alerts/" +:+ number_to_string alertId.

(** The button under the list of alerts. *)
Definition viewAllAlerts : string := "/alerts".

End Dashboard.

(** [pages/RegionDetail.tsx].  [code] is what [useParams] gives,
    [undefined] when the route has no such parameter. *)
Module RegionDetail.
Import Api.

(** [`${code}`] *)
Definition template (code : option string) : string :=
  default "undefined" code.

(** The two queries of the page, on [code || '']. *)
Definition queries (code : option string) : list HookCalls.hook_call :=
  [ HookCalls.UseRegion (or_string code "");
    HookCalls.UseRegionRisks (or_string code "") ].

(** The targets of [navigate]. *)
Definition back : string := "/".
Definition viewAlerts (code : option string) : string :=
  "/alerts?region=" +:+ template code.

(** The colour of the score in the header, read from the level the server
    sent, and the colour of an index of the breakdown, read from the level
    computed from its value; neither read has a fallback. *)
Definition header_color (risk_level : Js.key) : Js.value :=
  Js.get RISK_COLORS (Js.toPropertyKey risk_level).

Definition breakdown_color (value : number) : Js.value :=
  Js.get RISK_COLORS (level_name (indexBreakdown_level value)).

End RegionDetail.

(** [components/DiseaseHotspots.tsx].  [hotspots] is the object as
    [Object.entries] lists it. *)
Module DiseaseHotspots.







End DiseaseHotspots.

(** [components/RiskSummaryCard.tsx]: the share of one level,
    [total > 0 ? (count / total) * 100 : 0]. *)
Module RiskSummaryCard.

Definition percentage (count total : number) : number :=
  if lt 0%float total then (count / total * 100)%float else 0%float.

End RiskSummaryCard.

(** * Properties *)

(** ** Colour getters *)

Section Colours.
Import Js.

Example getRiskColor_high : getRiskColor (KStr "high") = Str "#F97316".
Proof. reflexivity. Qed.

Example getRiskColor_unknown : getRiskColor (KStr "severe") = Str "#10B981".
Proof. reflexivity. Qed.

Example getDiseaseColor_malaria : getDiseaseColor "malaria" = Str "#8B5CF6".
Proof. reflexivity. Qed.

Example getDiseaseColor_unknown : getDiseaseColor "zika" = Str "#64748B".
Proof. reflexivity. Qed.

Lemma getRiskColor_level (l : RiskLevel) :
  getRiskColor (KStr (level_name l)) = get RISK_COLORS (level_name l).
Proof. by destruct l. Qed.

(** Distinct levels have distinct colours. *)
Lemma getRiskColor_injective (l1 l2 : RiskLevel) :
  getRiskColor (KStr (level_name l1)) = getRiskColor (KStr (level_name l2)) →
  l1 = l2.
Proof. destruct l1, l2; vm_compute; congruence. Qed.

(** A key that is neither an own property of the table nor a member of
    [Object.prototype] reads [undefined], and the getter falls back. *)
Lemma get_unknown (table : gmap string string) (k : string) :
  table !! k = None → k ∉ object_prototype → get table k = Undefined.
Proof.
  intros Hown Hproto. unfold get. rewrite Hown.
  by rewrite bool_decide_eq_false_2.
Qed.

Lemma getRiskColor_fallback (level : key) :
  RISK_COLORS !! toPropertyKey level = None →
  toPropertyKey level ∉ object_prototype →
  getRiskColor level = Str "#10B981".
Proof.
  intros Hown Hproto. unfold getRiskColor.
  by rewrite get_unknown.
Qed.

Lemma getRiskColor_absent :
  getRiskColor KUndefined = Str "#10B981" ∧ getRiskColor KNull = Str "#10B981".
Proof. split; reflexivity. Qed.

Lemma getDiseaseColor_fallback (disease : string) :
  DISEASE_COLORS !! disease = None →
  disease ∉ object_prototype →
  getDiseaseColor disease = getDiseaseColor "covid".
Proof.
  intros Hown Hproto. unfold getDiseaseColor at 1.
  by rewrite get_unknown.
Qed.

Lemma getDiseaseColor_not_injective :
  ∃ k, k ≠ "covid" ∧ getDiseaseColor k = getDiseaseColor "covid".
Proof. exists "influenza". split; [discriminate | reflexivity]. Qed.

End Colours.

(** C5. [getRiskColor] does not fall back to the colour of [minimal] on
    every unknown level: the level ["constructor"] is not one of the five
    and is not a key of [RISK_COLORS], yet the read
    [RISK_COLORS["constructor"]] finds the member that every object inherits
    from [Object.prototype]; it is truthy, so [||] returns it in place of
    the fallback colour. *)
Theorem getRiskColor_inherited_level :
  (∀ l, level_name l ≠ "constructor") ∧
  RISK_COLORS !! "constructor" = None ∧
  getRiskColor (Js.KStr "constructor") = Js.Inherited "constructor" ∧
  getRiskColor (Js.KStr "constructor") ≠ getRiskColor (Js.KStr "minimal").
Proof.
  split; [by intros [] |]. split; [reflexivity |]. split; [reflexivity |].
  vm_compute. discriminate.
Qed.

(** C10. [getDiseaseColor] does not send every disease key outside its
    table to the colour of ["covid"]: the key ["constructor"] is not in
    [DISEASE_COLORS], yet [DISEASE_COLORS["constructor"]] is the inherited
    member of [Object.prototype], which [||] returns as it is. *)
Theorem getDiseaseColor_inherited_key :
  DISEASE_COLORS !! "constructor" = None ∧
  getDiseaseColor "constructor" = Js.Inherited "constructor" ∧
  getDiseaseColor "covid" = Js.Str "#64748B" ∧
  getDiseaseColor "constructor" ≠ getDiseaseColor "covid".
Proof.
  split; [reflexivity |]. split; [reflexivity |]. split; [reflexivity |].
  vm_compute. discriminate.
Qed.

(** ** Comparison of numbers *)

Module Binary64Facts.
Import Binary64.

Lemma pow2_pos e : (0 < pow2 e)%Q.
Proof. apply Qpower_0_lt. reflexivity. Qed.

Lemma pow2_add a b : (pow2 (a + b) == pow2 a * pow2 b)%Q.
Proof. apply Qpower_plus. discriminate. Qed.

Lemma pow2_succ e : (pow2 (e + 1) == 2 * pow2 e)%Q.
Proof. rewrite pow2_add. change (pow2 1) with (2#1)%Q. ring. Qed.

Lemma pow2_le a b : a <= b -> (pow2 a <= pow2 b)%Q.
Proof. intros H. apply Qpower_le_compat_l; [exact H | discriminate]. Qed.

Lemma pow2_Z k : 0 <= k -> (pow2 k == inject_Z (2 ^ k))%Q.
Proof. intros H. unfold pow2. rewrite Zpower_Qpower by exact H. reflexivity. Qed.

Lemma digits2_pos_bounds (m : positive) :
  2 ^ (Z.pos (digits2_pos m) - 1) <= Z.pos m < 2 ^ Z.pos (digits2_pos m).
Proof.
  induction m as [p IH | p IH | ]; simpl digits2_pos.
  - rewrite Pos2Z.inj_succ.
    replace (Z.succ (Z.pos (digits2_pos p)) - 1)
      with (Z.succ (Z.pos (digits2_pos p) - 1)) by lia.
    rewrite !Z.pow_succ_r by lia. lia.
  - rewrite Pos2Z.inj_succ.
    replace (Z.succ (Z.pos (digits2_pos p)) - 1)
      with (Z.succ (Z.pos (digits2_pos p) - 1)) by lia.
    rewrite !Z.pow_succ_r by lia. lia.
  - simpl. lia.
Qed.

Lemma canonical_inv m e :
  canonical m e ->
  -1074 <= e /\ Z.pos (digits2_pos m) <= 53 /\
  (-1074 < e -> Z.pos (digits2_pos m) = 53).
Proof.
  unfold canonical, canonical_mantissa, fexp, SpecFloat.emin, prec, emax.
  rewrite Z.eqb_eq. lia.
Qed.

Lemma canonical_lt_2p53 m e : canonical m e -> Z.pos m < 2 ^ 53.
Proof.
  intros [_ [H _]]%canonical_inv.
  pose proof (digits2_pos_bounds m) as [_ Hm].
  eapply Z.lt_le_trans; [exact Hm|].
  apply Z.pow_le_mono_r; lia.
Qed.

Lemma canonical_ge_2p52 m e : canonical m e -> -1074 < e -> 2 ^ 52 <= Z.pos m.
Proof.
  intros [_ [_ H]]%canonical_inv He. specialize (H He).
  pose proof (digits2_pos_bounds m) as [Hm _].
  rewrite H in Hm. exact Hm.
Qed.

Lemma F2Q_pos m e : (0 < F2Q false m e)%Q.
Proof.
  unfold F2Q. simpl cond_Zopp.
  apply Qmult_lt_0_compat; [reflexivity | apply pow2_pos].
Qed.

Lemma F2Q_opp m e : (F2Q true m e == - F2Q false m e)%Q.
Proof.
  unfold F2Q. simpl cond_Zopp.
  change (Z.neg m) with (- Z.pos m). rewrite inject_Z_opp. ring.
Qed.

Lemma F2Q_neg m e : (F2Q true m e < 0)%Q.
Proof. rewrite F2Q_opp. pose proof (F2Q_pos m e). lra. Qed.

Lemma F2Q_lt_exp m1 e1 m2 e2 :
  canonical m1 e1 -> canonical m2 e2 -> e1 < e2 ->
  (F2Q false m1 e1 < F2Q false m2 e2)%Q.
Proof.
  intros H1 H2 He.
  pose proof (canonical_lt_2p53 _ _ H1) as Hm1.
  assert (-1074 < e2) as He2 by (apply canonical_inv in H1; lia).
  pose proof (canonical_ge_2p52 _ _ H2 He2) as Hm2.
  unfold F2Q. simpl cond_Zopp.
  rewrite Zlt_Qlt in Hm1. rewrite Zle_Qle in Hm2.
  change (inject_Z (2 ^ 53)) with (9007199254740992%Q) in Hm1.
  change (inject_Z (2 ^ 52)) with (4503599627370496%Q) in Hm2.
  pose proof (pow2_pos e1) as P1.
  pose proof (pow2_le (e1 + 1) e2 ltac:(lia)) as P2.
  rewrite pow2_succ in P2.
  set (a := inject_Z (Z.pos m1)) in *. set (b := inject_Z (Z.pos m2)) in *.
  set (p1 := pow2 e1) in *. set (p2 := pow2 e2) in *.
  assert (a * p1 < 9007199254740992 * p1)%Q by nra.
  assert (4503599627370496 * p2 <= b * p2)%Q by nra.
  lra.
Qed.

Lemma F2Q_compare_mant m1 m2 e :
  (F2Q false m1 e ?= F2Q false m2 e)%Q = Pos.compare m1 m2.
Proof.
  unfold F2Q. simpl cond_Zopp. pose proof (pow2_pos e) as P.
  destruct (Pos.compare_spec m1 m2) as [E | L | G].
  - subst. apply -> Qeq_alt. reflexivity.
  - apply -> Qlt_alt. apply Qmult_lt_compat_r; [exact P|].
    rewrite <- Zlt_Qlt. lia.
  - apply -> Qgt_alt. apply Qmult_lt_compat_r; [exact P|].
    rewrite <- Zlt_Qlt. lia.
Qed.

Lemma compare_canonical m1 e1 m2 e2 :
  canonical m1 e1 -> canonical m2 e2 ->
  match e1 ?= e2 with
  | Lt => Lt
  | Gt => Gt
  | Eq => Pos.compare_cont Eq m1 m2
  end = (F2Q false m1 e1 ?= F2Q false m2 e2)%Q.
Proof.
  intros H1 H2. destruct (Z.compare_spec e1 e2) as [E | L | G].
  - subst. symmetry. apply F2Q_compare_mant.
  - symmetry. apply -> Qlt_alt. now apply F2Q_lt_exp.
  - symmetry. apply -> Qgt_alt. now apply F2Q_lt_exp.
Qed.

Lemma Qcompare_opp a b : (- a ?= - b)%Q = CompOpp (a ?= b)%Q.
Proof.
  destruct (a ?= b)%Q eqn:E; simpl.
  - apply <- Qeq_alt in E. apply -> Qeq_alt. rewrite E. reflexivity.
  - apply <- Qlt_alt in E. apply -> Qgt_alt. lra.
  - apply <- Qgt_alt in E. apply -> Qlt_alt. lra.
Qed.

Lemma valid_canonical s m e :
  valid_binary (S754_finite s m e) = true -> canonical m e.
Proof.
  unfold canonical. simpl. unfold bounded. now intros [H _]%andb_prop.
Qed.

(** On valid numbers the comparison of representations is the
    comparison of values. *)
Lemma SFcompare_value x y :
  valid_binary x = true -> valid_binary y = true ->
  SFcompare x y = xcompare (SF2X x) (SF2X y).
Proof.
  destruct x as [sx | sx | | sx mx ex], y as [sy | sy | | sy my ey];
    intros Hx Hy; simpl; try reflexivity.
  - f_equal. destruct sy; symmetry.
    + apply -> Qgt_alt. apply F2Q_neg.
    + apply -> Qlt_alt. apply F2Q_pos.
  - f_equal. destruct sx; symmetry.
    + apply -> Qlt_alt. apply F2Q_neg.
    + apply -> Qgt_alt. apply F2Q_pos.
  - apply valid_canonical in Hx, Hy. f_equal.
    destruct sx, sy.
    + rewrite (Qcompare_comp _ _ (F2Q_opp mx ex) _ _ (F2Q_opp my ey)).
      rewrite Qcompare_opp, <- compare_canonical by assumption.
      now destruct (ex ?= ey).
    + symmetry. apply -> Qlt_alt.
      pose proof (F2Q_neg mx ex). pose proof (F2Q_pos my ey). lra.
    + symmetry. apply -> Qgt_alt.
      pose proof (F2Q_pos mx ex). pose proof (F2Q_neg my ey). lra.
    + now apply compare_canonical.
Qed.

Lemma leb_value (x y : float) :
  PrimFloat.leb x y = true <-> xle (value x) (value y).
Proof.
  rewrite leb_spec. unfold SFleb, xle, value.
  rewrite SFcompare_value by apply Prim2SF_valid.
  destruct (xcompare _ _) as [[ | | ] | ]; intuition discriminate.
Qed.

Lemma xle_fin p q : xle (XFin p) (XFin q) ↔ (p <= q)%Q.
Proof.
  unfold xle. simpl. rewrite Qle_alt.
  destruct (p ?= q)%Q; intuition congruence.
Qed.

Lemma xlt_fin p q : xlt (XFin p) (XFin q) ↔ (p < q)%Q.
Proof.
  unfold xlt. simpl. change (p < q)%Q with ((p ?= q)%Q = Lt).
  destruct (p ?= q)%Q; intuition congruence.
Qed.

Lemma xle_trans a b c : xle a b → xle b c → xle a c.
Proof.
  destruct a as [ | [] | p], b as [ | [] | q], c as [ | [] | r];
    try (unfold xle; simpl; tauto).
  rewrite !xle_fin. apply Qle_trans.
Qed.

(** [s >= c] against a constant of exact value [q], by the kind of [s]. *)
Lemma ge_cases (c s : number) (q : Q) :
  denotes c q →
  match value s with
  | XNaN => ge s c = false
  | XInf negative => ge s c = negb negative
  | XFin p => ge s c = true ↔ (q <= p)%Q
  end.
Proof.
  unfold denotes, ge. intros Hc.
  pose proof (leb_value c s) as H.
  destruct (value c) as [ | | q'] eqn:Ec; try contradiction.
  destruct (value s) as [ | [] | p] eqn:Es.
  - apply not_true_is_false. rewrite H. unfold xle. simpl. tauto.
  - apply not_true_is_false. rewrite H. unfold xle. simpl. tauto.
  - apply H. exact I.
  - rewrite H, xle_fin, Hc. reflexivity.
Qed.

Lemma ge_mono (c s1 s2 : number) :
  ge s1 c = true → le s1 s2 = true → ge s2 c = true.
Proof.
  unfold ge, le. rewrite !leb_value. apply xle_trans.
Qed.

Lemma denotes_80 : denotes 80%float 80.
Proof. reflexivity. Qed.
Lemma denotes_60 : denotes 60%float 60.
Proof. reflexivity. Qed.
Lemma denotes_40 : denotes 40%float 40.
Proof. reflexivity. Qed.
Lemma denotes_20 : denotes 20%float 20.
Proof. reflexivity. Qed.

End Binary64Facts.

(** ** Rounding

    What [SpecFloat] computes when it rounds, in five steps:
    - shifting a mantissa right keeps the place of the exact value
      ([shr_1_inside], [shr_fexp_spec]);
    - [binary_round_aux] is [pack] of the mantissa rounded to nearest, ties
      to even, at the exponent of the binade ([binary_round_aux_spec]);
    - the rounded value does not decrease when the exact value increases
      ([value_mono], [rounds_mono]);
    - division by 100, multiplication by 16 and addition to 8 round their
      exact results ([div100_rounds], [mul16_rounds], [add8_rounds]), so
      that each is monotone ([stage_mono]);
    - the rounding of a value of magnitude at most [2^j] is within
      [2^(j-53)] of it ([rounds_error]). *)

Module RoundingFacts.
Import Binary64 Binary64Facts.

(** *** Shifting right *)

Lemma iter_pos_nat {A} (f : A → A) (p : positive) (x : A) :
  SpecFloat.iter_pos f p x = Nat.iter (Pos.to_nat p) f x.
Proof.
  revert x. induction p as [p IH | p IH | ]; intros x; simpl SpecFloat.iter_pos.
  - rewrite !IH, Pos2Nat.inj_xI.
    replace (S (2 * Pos.to_nat p)) with (Pos.to_nat p + (Pos.to_nat p + 1))%nat by lia.
    rewrite !Nat.iter_add. reflexivity.
  - rewrite !IH, Pos2Nat.inj_xO.
    replace (2 * Pos.to_nat p)%nat with (Pos.to_nat p + Pos.to_nat p)%nat by lia.
    rewrite Nat.iter_add. reflexivity.
  - reflexivity.
Qed.

Lemma inject_Z_xO p : (inject_Z (Z.pos p~0) == 2 * inject_Z (Z.pos p))%Q.
Proof. change (Z.pos p~0) with (2 * Z.pos p). rewrite inject_Z_mult. reflexivity. Qed.

Lemma inject_Z_xI p : (inject_Z (Z.pos p~1) == 2 * inject_Z (Z.pos p) + 1)%Q.
Proof.
  change (Z.pos p~1) with (2 * Z.pos p + 1).
  rewrite inject_Z_plus, inject_Z_mult. reflexivity.
Qed.

Lemma shr_1_div2 mrs :
  0 <= shr_m mrs → shr_m (shr_1 mrs) = Z.div2 (shr_m mrs).
Proof.
  destruct mrs as [[ | [p | p | ] | p] r s]; simpl shr_m; intros Hm;
    try lia; reflexivity.
Qed.

(** One shift halves the exact value and keeps its place. *)
Lemma shr_1_inside t mrs :
  0 <= shr_m mrs →
  inside t (shr_m mrs) (loc_of_shr_record mrs) →
  inside (t * (1 # 2)) (shr_m (shr_1 mrs)) (loc_of_shr_record (shr_1 mrs)).
Proof.
  destruct mrs as [[ | [p | p | ] | p] r s]; simpl shr_m; intros Hm; try lia;
    destruct r, s; unfold inside; simpl;
    rewrite ?inject_Z_xO, ?inject_Z_xI;
    change (inject_Z 0) with 0%Q; change (inject_Z 1) with 1%Q;
    intros H; lra.
Qed.

Lemma inside_ext t t' m l : (t == t')%Q → inside t m l → inside t' m l.
Proof. intros Ht. destruct l as [| []]; simpl; rewrite Ht; tauto. Qed.

Lemma shr_iter n t mrs :
  0 <= shr_m mrs →
  inside t (shr_m mrs) (loc_of_shr_record mrs) →
  shr_m (Nat.iter n shr_1 mrs) = shr_m mrs / 2 ^ Z.of_nat n ∧
  inside (t * pow2 (- Z.of_nat n)) (shr_m (Nat.iter n shr_1 mrs))
         (loc_of_shr_record (Nat.iter n shr_1 mrs)).
Proof.
  intros Hm Hin. induction n as [| n [IHm IHin]].
  - simpl. rewrite Z.div_1_r. split; [reflexivity |].
    change (pow2 (- Z.of_nat 0)) with 1%Q.
    eapply inside_ext; [| exact Hin]. ring.
  - rewrite Nat.iter_succ.
    assert (0 <= shr_m (Nat.iter n shr_1 mrs)) as Hpos.
    { rewrite IHm. apply Z.div_pos; [exact Hm | apply Z.pow_pos_nonneg; lia]. }
    split.
    + rewrite shr_1_div2 by exact Hpos. rewrite Z.div2_div, IHm.
      rewrite Z.div_div by (try apply Z.pow_pos_nonneg; lia).
      rewrite Nat2Z.inj_succ, Z.pow_succ_r by lia. f_equal. lia.
    + apply shr_1_inside in IHin; [| exact Hpos].
      replace (- Z.of_nat (S n)) with (- Z.of_nat n + -1) by lia.
      eapply inside_ext; [| exact IHin].
      rewrite pow2_add. change (pow2 (-1)) with (1 # 2)%Q. ring.
Qed.

Lemma Zdigits2_bounds m :
  0 < m → 2 ^ (Zdigits2 m - 1) <= m < 2 ^ Zdigits2 m.
Proof.
  destruct m as [| p | p]; try lia. intros _. apply digits2_pos_bounds.
Qed.

Lemma Zdigits2_nonneg m : 0 <= Zdigits2 m.
Proof. destruct m; simpl; lia. Qed.

Lemma Zdigits2_pos m : 0 < m → 0 < Zdigits2 m.
Proof. destruct m; simpl; lia. Qed.

Lemma Zdigits2_unique m j :
  0 < m → 2 ^ (j - 1) <= m < 2 ^ j → Zdigits2 m = j.
Proof.
  intros Hm [Hl Hu]. pose proof (Zdigits2_bounds m Hm) as [Dl Du].
  pose proof (Zdigits2_pos m Hm) as Dp.
  assert (0 < j) as Hj.
  { destruct (Z_lt_le_dec 0 j) as [| Hn]; [assumption |].
    assert (2 ^ j <= 1).
    { destruct (Z.eq_dec j 0) as [-> | ]; [simpl; lia |].
      rewrite Z.pow_neg_r by lia. lia. }
    lia. }
  destruct (Z.lt_trichotomy (Zdigits2 m) j) as [L | [E | G]]; [| exact E |].
  - assert (2 ^ Zdigits2 m <= 2 ^ (j - 1)) by (apply Z.pow_le_mono_r; lia). lia.
  - assert (2 ^ j <= 2 ^ (Zdigits2 m - 1)) by (apply Z.pow_le_mono_r; lia). lia.
Qed.

Lemma fexp_eq z : fexp prec emax z = Z.max (z - 53) (-1074).
Proof. reflexivity. Qed.

(** [shr_fexp] brings a mantissa with enough digits to the exponent of its
    binade, where it has the shape of a number. *)
Lemma shr_fexp_spec (v : Q) (m e : Z) (l : location) :
  0 <= m →
  inside (v * pow2 (- e)) m l →
  e <= fexp prec emax (Zdigits2 m + e) →
  ∃ mrs E,
    shr_fexp prec emax m e l = (mrs, E) ∧
    normal_at (shr_m mrs) E ∧
    inside (v * pow2 (- E)) (shr_m mrs) (loc_of_shr_record mrs).
Proof.
  intros Hm Hin Hpre. unfold shr_fexp.
  set (E := fexp prec emax (Zdigits2 m + e)) in *.
  assert (loc_of_shr_record (shr_record_of_loc m l) = l) as Hloc
    by (destruct l as [| []]; reflexivity).
  assert (shr_m (shr_record_of_loc m l) = m) as Hshr
    by (destruct l as [| []]; reflexivity).
  assert (-1074 <= E) as HE by (unfold E; rewrite fexp_eq; lia).
  destruct (E - e) as [| n | n] eqn:Hn; try lia; unfold shr.
  - (* no shift *)
    assert (E = e) as HEe by lia.
    exists (shr_record_of_loc m l), e. rewrite Hshr, Hloc.
    split; [reflexivity |]. split; [| exact Hin].
    unfold normal_at. rewrite <- HEe.
    destruct (Z.eq_dec m 0) as [-> | Hm0].
    + simpl in E. unfold E in *. rewrite fexp_eq in *. simpl. lia.
    + pose proof (Zdigits2_bounds m ltac:(lia)) as [Dl Du].
      unfold E in HEe, HE |- *. rewrite fexp_eq in *.
      assert (Zdigits2 m <= 53) by lia.
      split; [lia |]. split.
      * split; [lia |]. eapply Z.lt_le_trans; [exact Du |].
        apply Z.pow_le_mono_r; lia.
      * intros Hgt. assert (Zdigits2 m = 53) as Hd by lia.
        rewrite Hd in Dl. exact Dl.
  - (* shift by n *)
    rewrite iter_pos_nat.
    pose proof (shr_iter (Pos.to_nat n) (v * pow2 (- e)) (shr_record_of_loc m l))
      as Hit.
    rewrite Hshr, Hloc in Hit. specialize (Hit Hm Hin) as [Hsm Hsin].
    rewrite positive_nat_Z in Hsm, Hsin.
    eexists _, _. split; [reflexivity |].
    assert (e + Z.pos n = E) as HEe by lia.
    split.
    + unfold normal_at. rewrite Hsm, HEe. split; [exact HE |].
      destruct (Z.eq_dec m 0) as [-> | Hm0].
      { rewrite Z.div_0_l by (apply Z.pow_nonzero; lia).
        split; [lia |]. intros Hgt. exfalso.
        unfold E in *. simpl Zdigits2 in *. rewrite fexp_eq in *. lia. }
      pose proof (Zdigits2_bounds m ltac:(lia)) as [Dl Du].
      pose proof (Zdigits2_pos m ltac:(lia)) as Dp.
      assert (0 < 2 ^ Z.pos n) as Hpn by (apply Z.pow_pos_nonneg; lia).
      assert (Zdigits2 m - Z.pos n <= 53) as Hdn
        by (unfold E in HEe; rewrite fexp_eq in HEe; lia).
      split; [split |].
      * apply Z.div_pos; lia.
      * apply Z.div_lt_upper_bound; [exact Hpn |].
        eapply Z.lt_le_trans; [exact Du |].
        rewrite <- Z.pow_add_r by lia. apply Z.pow_le_mono_r; lia.
      * intros Hgt.
        assert (Zdigits2 m - Z.pos n = 53) as Hd
          by (unfold E in HEe, Hgt; rewrite fexp_eq in HEe, Hgt; lia).
        apply Z.div_le_lower_bound; [exact Hpn |].
        rewrite <- Z.pow_add_r by lia.
        replace (Z.pos n + 52) with (Zdigits2 m - 1) by lia. exact Dl.
    + replace (- (e + Z.pos n)) with (- e + - Z.pos n) by lia.
      eapply inside_ext; [| exact Hsin]. rewrite pow2_add. ring.
Qed.

(** *** Rounding to nearest, ties to even *)

Lemma shr_nonpos mrs e n : n <= 0 → shr mrs e n = (mrs, e).
Proof. destruct n; [reflexivity | lia | reflexivity]. Qed.

Lemma rne_bounds m l : m <= round_nearest_even m l <= m + 1.
Proof. destruct l as [| []]; simpl; try destruct (Z.even m); lia. Qed.

(** The second [shr_fexp] of [binary_round_aux] renormalises a mantissa that
    rounding carried to [2^53]. *)
Lemma finish_round s k E m :
  normal_at m E → m <= k <= m + 1 →
  (let '(mrs, e) := shr_fexp prec emax k E loc_Exact in
   match shr_m mrs with
   | 0 => S754_zero s
   | Z.pos p => if e <=? emax - prec then S754_finite s p e else S754_infinity s
   | Z.neg _ => S754_nan
   end) = pack s k E.
Proof.
  intros (HE & [Hm0 Hm] & Hn) Hk. unfold pack, shr_fexp.
  destruct (Z.eqb_spec k 0) as [-> | Hk0].
  - rewrite shr_nonpos by (simpl Zdigits2; rewrite fexp_eq; lia). reflexivity.
  - destruct (Z.ltb_spec k (2 ^ 53)) as [Hlt | Hge].
    + pose proof (Zdigits2_bounds k ltac:(lia)) as [Dl Du].
      assert (Zdigits2 k <= 53) as Hd.
      { destruct (Z_le_gt_dec (Zdigits2 k) 53) as [| Hgt]; [assumption |].
        assert (2 ^ 53 <= 2 ^ (Zdigits2 k - 1)) by (apply Z.pow_le_mono_r; lia).
        lia. }
      rewrite shr_nonpos by (rewrite fexp_eq; lia).
      simpl shr_m. destruct k as [| p | p]; try lia.
      simpl Z.to_pos. reflexivity.
    + assert (k = 2 ^ 53) as -> by lia.
      change (Zdigits2 (2 ^ 53)) with 54.
      replace (fexp prec emax (54 + E) - E) with 1 by (rewrite fexp_eq; lia).
      reflexivity.
Qed.

Lemma binary_round_aux_spec (s : bool) (v : Q) (m e : Z) (l : location) :
  0 <= m →
  inside (v * pow2 (- e)) m l →
  e <= fexp prec emax (Zdigits2 m + e) →
  ∃ m' E l',
    normal_at m' E ∧ inside (v * pow2 (- E)) m' l' ∧
    binary_round_aux prec emax s m e l = pack s (round_nearest_even m' l') E.
Proof.
  intros Hm Hin Hpre.
  destruct (shr_fexp_spec v m e l Hm Hin Hpre) as (mrs & E & Hshr & Hn & Hin').
  exists (shr_m mrs), E, (loc_of_shr_record mrs).
  split; [exact Hn |]. split; [exact Hin' |].
  unfold binary_round_aux. rewrite Hshr.
  apply (finish_round s _ E (shr_m mrs) Hn), rne_bounds.
Qed.

Lemma pack_valid s k E m :
  normal_at m E → m <= k <= m + 1 → valid_binary (pack s k E) = true.
Proof.
  intros (HE & [Hm0 Hm] & Hn) Hk. unfold pack.
  destruct (Z.eqb_spec k 0) as [-> | Hk0]; [reflexivity |].
  destruct (Z.ltb_spec k (2 ^ 53)) as [Hlt | Hge].
  - destruct (Z.leb_spec E 971) as [HE' | HE']; [| reflexivity].
    unfold valid_binary, bounded, canonical_mantissa. rewrite fexp_eq.
    apply andb_true_intro. split; [| apply Z.leb_le; unfold emax, prec; lia].
    apply Z.eqb_eq.
    change (Z.pos (digits2_pos (Z.to_pos k))) with (Zdigits2 (Z.pos (Z.to_pos k))).
    rewrite Z2Pos.id by lia.
    pose proof (Zdigits2_bounds k ltac:(lia)) as [Dl Du].
    assert (Zdigits2 k <= 53) as Hd.
    { destruct (Z_le_gt_dec (Zdigits2 k) 53) as [| Hgt]; [assumption |].
      assert (2 ^ 53 <= 2 ^ (Zdigits2 k - 1)) by (apply Z.pow_le_mono_r; lia).
      lia. }
    destruct (Z.eq_dec E (-1074)) as [-> | HEn]; [lia |].
    assert (2 ^ 52 <= k) as Hk52 by lia.
    assert (Zdigits2 k = 53) as ->; [| lia].
    apply Zdigits2_unique; lia.
  - destruct (Z.leb_spec (E + 1) 971) as [HE' | HE']; [| reflexivity].
    unfold valid_binary, bounded, canonical_mantissa. rewrite fexp_eq.
    apply andb_true_intro. split; [| apply Z.leb_le; unfold emax, prec; lia].
    apply Z.eqb_eq. change (Z.pos (digits2_pos (Z.to_pos (2 ^ 52)))) with 53. lia.
Qed.

(** *** Values *)

Lemma rv_pos k E : 0 < k → (0 < rv k E)%Q.
Proof.
  intros Hk. unfold rv. apply Qmult_lt_0_compat; [| apply pow2_pos].
  change 0%Q with (inject_Z 0). rewrite <- Zlt_Qlt. exact Hk.
Qed.

Lemma rv_le k1 k2 E : k1 <= k2 → (rv k1 E <= rv k2 E)%Q.
Proof.
  intros Hk. unfold rv. apply Qmult_le_compat_r; [| apply Qlt_le_weak, pow2_pos].
  rewrite <- Zle_Qle. exact Hk.
Qed.

Lemma rv_shift k E : (rv (2 * k) E == rv k (E + 1))%Q.
Proof. unfold rv. rewrite inject_Z_mult, pow2_succ. ring. Qed.

Lemma rv_exp_le k E1 E2 : 0 <= k → E1 <= E2 → (rv k E1 <= rv k E2)%Q.
Proof.
  intros Hk HE. unfold rv.
  assert (0 <= inject_Z k)%Q as Hk'
    by (change 0%Q with (inject_Z 0); rewrite <- Zle_Qle; exact Hk).
  pose proof (pow2_le _ _ HE). nra.
Qed.

Lemma rv_pow2 a E : 0 <= a → (rv (2 ^ a) E == pow2 (a + E))%Q.
Proof. intros Ha. unfold rv. rewrite pow2_add, (pow2_Z a Ha). reflexivity. Qed.

Lemma pow2_lt a b : a < b → (pow2 a < pow2 b)%Q.
Proof. intros H. apply Qpower_lt_compat_l; [exact H | reflexivity]. Qed.

Lemma pow2_cancel E : (pow2 (- E) * pow2 E == 1)%Q.
Proof. rewrite <- pow2_add. replace (- E + E) with 0 by lia. reflexivity. Qed.

(** *** Monotonicity *)

Lemma inside_bounds t m l :
  inside t m l → (inject_Z m <= t ∧ t < inject_Z m + 1)%Q.
Proof. destruct l as [| []]; simpl; lra. Qed.

Lemma rne_mono t1 m1 l1 t2 m2 l2 :
  inside t1 m1 l1 → inside t2 m2 l2 → (t1 <= t2)%Q →
  round_nearest_even m1 l1 <= round_nearest_even m2 l2.
Proof.
  intros H1 H2 Ht.
  destruct (Z.lt_trichotomy m1 m2) as [L | [E | G]].
  - pose proof (rne_bounds m1 l1). pose proof (rne_bounds m2 l2). lia.
  - subst m2.
    destruct l1 as [| []], l2 as [| []]; simpl in *;
      destruct (Z.even m1); try lia; exfalso; lra.
  - exfalso. apply inside_bounds in H1, H2.
    assert (inject_Z m2 + 1 <= inject_Z m1)%Q.
    { change 1%Q with (inject_Z 1). rewrite <- inject_Z_plus, <- Zle_Qle. lia. }
    lra.
Qed.

Lemma value_split v E : (v == v * pow2 (- E) * pow2 E)%Q.
Proof. rewrite <- Qmult_assoc, pow2_cancel. ring. Qed.

(** Rounded at the exponents of their binades, two values keep their
    order. *)
Lemma value_mono v1 v2 m1 E1 l1 m2 E2 l2 :
  (v1 <= v2)%Q →
  normal_at m1 E1 → normal_at m2 E2 →
  inside (v1 * pow2 (- E1)) m1 l1 → inside (v2 * pow2 (- E2)) m2 l2 →
  (rv (round_nearest_even m1 l1) E1 <= rv (round_nearest_even m2 l2) E2)%Q.
Proof.
  intros Hv (HE1 & [Hm1 Hm1'] & Hn1) (HE2 & [Hm2 Hm2'] & Hn2) H1 H2.
  pose proof (rne_bounds m1 l1) as Hk1. pose proof (rne_bounds m2 l2) as Hk2.
  destruct (Z.lt_trichotomy E1 E2) as [L | [E | G]].
  - specialize (Hn2 ltac:(lia)).
    eapply Qle_trans; [apply (rv_le _ (2 ^ 53)); lia |].
    eapply Qle_trans; [| apply (rv_le (2 ^ 52)); lia].
    change (2 ^ 53) with (2 * 2 ^ 52). rewrite rv_shift.
    apply rv_exp_le; lia.
  - subst E2. apply rv_le. eapply rne_mono; [exact H1 | exact H2 |].
    apply Qmult_le_compat_r; [exact Hv | apply Qlt_le_weak, pow2_pos].
  - exfalso. specialize (Hn1 ltac:(lia)).
    apply inside_bounds in H1, H2. destruct H1 as [H1 _], H2 as [_ H2].
    assert (rv m1 E1 <= v1)%Q as A1.
    { rewrite (value_split v1 E1). unfold rv.
      apply Qmult_le_compat_r; [exact H1 | apply Qlt_le_weak, pow2_pos]. }
    assert (v2 < rv (m2 + 1) E2)%Q as A2.
    { rewrite (value_split v2 E2). unfold rv.
      rewrite inject_Z_plus. change (inject_Z 1) with 1%Q.
      apply Qmult_lt_compat_r; [apply pow2_pos | exact H2]. }
    assert (rv (m2 + 1) E2 <= rv m1 E1)%Q as A3.
    { eapply Qle_trans; [apply (rv_le _ (2 ^ 53)); lia |].
      eapply Qle_trans; [| apply (rv_le (2 ^ 52)); lia].
      change (2 ^ 53) with (2 * 2 ^ 52). rewrite rv_shift.
      apply rv_exp_le; lia. }
    lra.
Qed.

Lemma F2Q_opp_sgn s p e : (F2Q s p e == sgn s (rv (Z.pos p) e))%Q.
Proof. unfold sgn, rv. destruct s; [apply F2Q_opp | reflexivity]. Qed.

Lemma pack_value s k E m :
  normal_at m E → m <= k <= m + 1 →
  ((rv k E < pow2 1024)%Q →
     ∃ q, SF2X (pack s k E) = XFin q ∧ (q == sgn s (rv k E))%Q) ∧
  ((pow2 1024 <= rv k E)%Q → SF2X (pack s k E) = XInf s).
Proof.
  intros (HE & [Hm0 Hm] & Hn) Hk. unfold pack.
  destruct (Z.eqb_spec k 0) as [-> | Hk0].
  { split.
    - intros _. exists 0%Q. split; [reflexivity |]. unfold rv, sgn.
      destruct s; ring.
    - intros H. exfalso. pose proof (pow2_pos 1024). unfold rv in H.
      change (inject_Z 0) with 0%Q in H. lra. }
  assert (∀ p e, Z.pos p = k → (F2Q s p e == sgn s (rv k e))%Q) as HF.
  { intros p e <-. unfold sgn, rv. destruct s; [apply F2Q_opp | reflexivity]. }
  destruct (Z.ltb_spec k (2 ^ 53)) as [Hlt | Hge].
  - destruct (Z.leb_spec E 971) as [HE' | HE'].
    + split.
      * intros _. eexists. split; [reflexivity |]. apply HF, Z2Pos.id. lia.
      * intros H. exfalso.
        assert (rv k E < pow2 1024)%Q; [| lra].
        eapply Qle_lt_trans; [apply (rv_exp_le k E 971); lia |].
        rewrite <- (rv_pow2 53 971) by lia. unfold rv.
        apply Qmult_lt_compat_r; [apply pow2_pos |].
        rewrite <- Zlt_Qlt. exact Hlt.
    + split.
      * intros H. exfalso.
        assert (pow2 1024 <= rv k E)%Q; [| lra].
        rewrite <- (rv_pow2 52 972) by lia.
        eapply Qle_trans; [apply (rv_exp_le _ 972 E); lia |].
        apply rv_le. lia.
      * reflexivity.
  - assert (k = 2 ^ 53) as -> by lia.
    destruct (Z.leb_spec (E + 1) 971) as [HE' | HE'].
    + split.
      * intros _. eexists. split; [reflexivity |].
        rewrite (F2Q_opp_sgn s). change (Z.pos (Z.to_pos (2 ^ 52))) with (2 ^ 52).
        change (2 ^ 53) with (2 * 2 ^ 52).
        destruct s; unfold sgn; rewrite rv_shift; reflexivity.
      * intros H. exfalso.
        assert (rv (2 ^ 53) E < pow2 1024)%Q; [| lra].
        rewrite rv_pow2 by lia. apply pow2_lt. lia.
    + split.
      * intros H. exfalso.
        assert (pow2 1024 <= rv (2 ^ 53) E)%Q; [| lra].
        rewrite rv_pow2 by lia. apply pow2_le. lia.
      * reflexivity.
Qed.

Lemma rv_nonneg k E : 0 <= k → (0 <= rv k E)%Q.
Proof.
  intros Hk. unfold rv. apply Qmult_le_0_compat; [| apply Qlt_le_weak, pow2_pos].
  change 0%Q with (inject_Z 0). rewrite <- Zle_Qle. exact Hk.
Qed.

(** Results of one sign, ordered by magnitude. *)
Lemma pack_mono (s : bool) k1 E1 m1 k2 E2 m2 :
  normal_at m1 E1 → m1 <= k1 <= m1 + 1 →
  normal_at m2 E2 → m2 <= k2 <= m2 + 1 →
  (rv k1 E1 <= rv k2 E2)%Q →
  if s return Prop then xle (SF2X (pack s k2 E2)) (SF2X (pack s k1 E1))
  else xle (SF2X (pack s k1 E1)) (SF2X (pack s k2 E2)).
Proof.
  intros Hn1 Hk1 Hn2 Hk2 Hle.
  destruct (pack_value s k1 E1 m1 Hn1 Hk1) as [F1 I1].
  destruct (pack_value s k2 E2 m2 Hn2 Hk2) as [F2 I2].
  destruct (Qlt_le_dec (rv k2 E2) (pow2 1024)) as [L2 | G2].
  - destruct (F2 L2) as (q2 & -> & Hq2).
    destruct (F1 ltac:(lra)) as (q1 & -> & Hq1).
    destruct s; apply xle_fin; unfold sgn in *; lra.
  - rewrite (I2 G2).
    destruct (Qlt_le_dec (rv k1 E1) (pow2 1024)) as [L1 | G1].
    + destruct (F1 L1) as (q1 & -> & Hq1). destruct s; exact I.
    + rewrite (I1 G1). destruct s; exact I.
Qed.

(** Results of sign [true] are at most 0, those of sign [false] at least 0. *)
Lemma pack_sign (s : bool) k E m :
  normal_at m E → m <= k <= m + 1 →
  if s return Prop then xle (SF2X (pack s k E)) (XFin 0)
  else xle (XFin 0) (SF2X (pack s k E)).
Proof.
  intros Hn Hk. destruct (pack_value s k E m Hn Hk) as [F Hi].
  pose proof (rv_nonneg k E ltac:(destruct Hn as (_ & [? _] & _); lia)) as Hnn.
  destruct (Qlt_le_dec (rv k E) (pow2 1024)) as [L | G].
  - destruct (F L) as (q & -> & Hq).
    destruct s; apply xle_fin; unfold sgn in *; lra.
  - rewrite (Hi G). destruct s; exact I.
Qed.

Lemma rounds_valid v r : rounds v r → valid_binary r = true.
Proof.
  intros (s & m & E & l & _ & Hn & _ & ->).
  eapply pack_valid; [exact Hn | apply rne_bounds].
Qed.

Lemma inside_zero t m l : (t == 0)%Q → 0 <= m → inside t m l → m = 0 ∧ l = loc_Exact.
Proof.
  intros Ht Hm H.
  assert (0 <= inject_Z m)%Q as Hq
    by (change 0%Q with (inject_Z 0); rewrite <- Zle_Qle; exact Hm).
  destruct l as [| []]; simpl in H; try (exfalso; lra).
  split; [| reflexivity].
  rewrite Ht in H. change 0%Q with (inject_Z 0) in H.
  symmetry. now apply inject_Z_injective.
Qed.

(** Rounding is monotone. *)
Lemma rounds_mono v1 v2 r1 r2 :
  rounds v1 r1 → rounds v2 r2 → (v1 <= v2)%Q → xle (SF2X r1) (SF2X r2).
Proof.
  intros (s1 & m1 & E1 & l1 & Hs1 & Hn1 & Hi1 & ->)
         (s2 & m2 & E2 & l2 & Hs2 & Hn2 & Hi2 & ->) Hv.
  pose proof (rne_bounds m1 l1) as Hk1. pose proof (rne_bounds m2 l2) as Hk2.
  destruct s1, s2; unfold sgn in *.
  - apply (pack_mono true _ _ _ _ _ _ Hn2 Hk2 Hn1 Hk1).
    apply (value_mono (- v2) (- v1)); try assumption. lra.
  - eapply xle_trans.
    + apply (pack_sign true _ _ _ Hn1 Hk1).
    + apply (pack_sign false _ _ _ Hn2 Hk2).
  - assert (v1 == 0)%Q as Z1 by lra. assert (- v2 == 0)%Q as Z2 by lra.
    assert (v1 * pow2 (- E1) == 0)%Q as T1 by (rewrite Z1; ring).
    assert (- v2 * pow2 (- E2) == 0)%Q as T2 by (rewrite Z2; ring).
    destruct Hn1 as (? & [? ?] & ?), Hn2 as (? & [? ?] & ?).
    destruct (inside_zero _ m1 l1 T1 ltac:(lia) Hi1) as [-> ->].
    destruct (inside_zero _ m2 l2 T2 ltac:(lia) Hi2) as [-> ->].
    exact I.
  - apply (pack_mono false _ _ _ _ _ _ Hn1 Hk1 Hn2 Hk2).
    apply (value_mono v1 v2); assumption.
Qed.

(** A number rounds to itself. *)
Lemma rounds_zero s : rounds 0 (S754_zero s).
Proof.
  exists s, 0, (-1074), loc_Exact. unfold sgn.
  split; [destruct s; lra |]. split; [unfold normal_at; lia |].
  split; [simpl; destruct s; ring | reflexivity].
Qed.

(** *** The three operations of [getMarkerSize] *)

Lemma rounds_intro (s : bool) (a v : Q) (m e : Z) (l : location) :
  (sgn s v == a)%Q → (0 <= a)%Q → 0 <= m →
  inside (a * pow2 (- e)) m l →
  e <= fexp prec emax (Zdigits2 m + e) →
  rounds v (binary_round_aux prec emax s m e l).
Proof.
  intros Hs Ha Hm Hin Hpre.
  destruct (binary_round_aux_spec s a m e l Hm Hin Hpre)
    as (m' & E & l' & Hn & Hin' & ->).
  exists s, m', E, l'. split; [rewrite Hs; exact Ha |].
  split; [exact Hn |]. split; [| reflexivity].
  eapply inside_ext; [| exact Hin']. rewrite Hs. reflexivity.
Qed.

Lemma rv_scale k e d : (rv k e * pow2 d == rv k (e + d))%Q.
Proof. unfold rv. rewrite pow2_add. ring. Qed.

Lemma rv_0 k : (rv k 0 == inject_Z k)%Q.
Proof. unfold rv. change (pow2 0) with 1%Q. ring. Qed.

Lemma rv_mul_pow2 k a e : 0 <= a → (rv (k * 2 ^ a) e == rv k (e + a))%Q.
Proof.
  intros Ha. unfold rv. rewrite inject_Z_mult, pow2_add, (pow2_Z a Ha). ring.
Qed.

Lemma Zdigits2_ge k j : 0 < k → 2 ^ (j - 1) <= k → j <= Zdigits2 k.
Proof.
  intros Hk Hj. pose proof (Zdigits2_bounds k Hk) as [_ Du].
  pose proof (Zdigits2_pos k Hk).
  destruct (Z_le_gt_dec j (Zdigits2 k)) as [| Hgt]; [assumption |].
  assert (2 ^ Zdigits2 k <= 2 ^ (j - 1)) by (apply Z.pow_le_mono_r; lia). lia.
Qed.

Lemma sgn_F2Q s m e : (sgn s (F2Q s m e) == rv (Z.pos m) e)%Q.
Proof.
  destruct s; unfold sgn; rewrite F2Q_opp_sgn; unfold sgn; ring.
Qed.

Lemma mul16_rounds s m e :
  rounds (F2Q s m e * 16) (SF64mul (S754_finite s m e) c16).
Proof.
  unfold SF64mul, SFmul, c16. rewrite xorb_false_r.
  apply (rounds_intro s (rv (Z.pos m) e * 16)).
  - pose proof (sgn_F2Q s m e) as H. destruct s; unfold sgn in *; lra.
  - pose proof (rv_nonneg (Z.pos m) e ltac:(lia)). lra.
  - lia.
  - simpl. change 16%Q with (pow2 4). rewrite !rv_scale.
    rewrite Pos2Z.inj_mul. change (Z.pos 4503599627370496) with (2 ^ 52).
    rewrite <- rv_0, rv_mul_pow2 by lia.
    replace (e + 4 + - (e + -48)) with (0 + 52) by lia. reflexivity.
  - rewrite fexp_eq.
    assert (53 <= Zdigits2 (Z.pos (m * 4503599627370496))); [| lia].
    apply Zdigits2_ge; [lia |]. rewrite Pos2Z.inj_mul.
    change (Z.pos 4503599627370496) with (2 ^ 52). simpl (53 - 1). nia.
Qed.

(** The quotient by 100: the integer division locates the exact quotient,
    with enough digits for the rounding that follows. *)
Lemma div_core_100 m e :
  canonical m e →
  ∃ q e' l,
    SFdiv_core_binary prec emax (Z.pos m) e (Z.pos 7036874417766400) (-46)
    = (q, e', l) ∧
    0 <= q ∧
    inside (rv (Z.pos m) e / 100 * pow2 (- e')) q l ∧
    e' <= fexp prec emax (Zdigits2 q + e').
Proof.
  intros Hc. pose proof (canonical_inv _ _ Hc) as (He & Hd & _).
  pose proof (digits2_pos_bounds m) as [Dl Du].
  unfold SFdiv_core_binary.
  change (Zdigits2 (Z.pos 7036874417766400)) with 53.
  change (Zdigits2 (Z.pos m)) with (Z.pos (digits2_pos m)).
  set (d1 := Z.pos (digits2_pos m)) in *.
  set (e' := Z.min (fexp prec emax (d1 + e - (53 + -46))) (e - -46)).
  assert (e' = Z.max (d1 + e - 60) (-1074)) as He'
    by (unfold e'; rewrite fexp_eq; lia).
  assert (0 < e - -46 - e') as Hs by lia.
  destruct (e - -46 - e') as [| sh | sh] eqn:Hsh; try lia.
  rewrite Z.shiftl_mul_pow2 by lia.
  set (m' := Z.pos m * 2 ^ Z.pos sh).
  pose proof (Z_div_mod m' (Z.pos 7036874417766400) ltac:(lia)) as Hdiv.
  destruct (Z.div_eucl m' (Z.pos 7036874417766400)) as [q r].
  destruct Hdiv as [Hqr Hr].
  assert (0 < 2 ^ Z.pos sh) as Hp by (apply Z.pow_pos_nonneg; lia).
  assert (0 <= q) as Hq by nia.
  exists q, e', (new_location (Z.pos 7036874417766400) r).
  split; [reflexivity |]. split; [exact Hq |]. split.
  - (* location *)
    assert (rv (Z.pos m) e / 100 * pow2 (- e')
            == inject_Z m' / 7036874417766400)%Q as Ht.
    { unfold Qdiv. rewrite <- Qmult_assoc, (Qmult_comm (/ 100)), Qmult_assoc.
      rewrite rv_scale. replace (e + - e') with (-46 + Z.pos sh) by lia.
      rewrite <- rv_mul_pow2 by lia. fold m'. unfold rv.
      change (pow2 (-46)) with (1 # 70368744177664)%Q.
      rewrite <- Qmult_assoc. reflexivity. }
    assert (inject_Z m' == 7036874417766400 * inject_Z q + inject_Z r)%Q as Hm'.
    { rewrite Hqr, inject_Z_plus, inject_Z_mult. reflexivity. }
    assert (0 <= inject_Z r)%Q as Hr0
      by (change 0%Q with (inject_Z 0); rewrite <- Zle_Qle; lia).
    eapply inside_ext; [symmetry; exact Ht |].
    set (t := (inject_Z m' / 7036874417766400)%Q).
    assert (t * 7036874417766400 == inject_Z m')%Q as Htm
      by (unfold t; field).
    unfold new_location. change (Z.even (Z.pos 7036874417766400)) with true.
    unfold new_location_even.
    destruct (Z.eqb_spec r 0) as [-> | Hr1].
    + simpl. change (inject_Z 0) with 0%Q in Hm'. lra.
    + assert (0 < inject_Z r)%Q as Hrp
        by (change 0%Q with (inject_Z 0); rewrite <- Zlt_Qlt; lia).
      destruct (Z.compare_spec (2 * r) (Z.pos 7036874417766400)) as [E | L | G];
        simpl.
      * assert (2 * inject_Z r == 7036874417766400)%Q as E'.
        { change 2%Q with (inject_Z 2). rewrite <- inject_Z_mult, E. reflexivity. }
        lra.
      * assert (2 * inject_Z r < 7036874417766400)%Q as L'.
        { change 2%Q with (inject_Z 2). rewrite <- inject_Z_mult.
          change 7036874417766400%Q with (inject_Z (Z.pos 7036874417766400)).
          rewrite <- Zlt_Qlt. exact L. }
        split; lra.
      * assert (7036874417766400 < 2 * inject_Z r)%Q as G'.
        { change 2%Q with (inject_Z 2). rewrite <- inject_Z_mult.
          change 7036874417766400%Q with (inject_Z (Z.pos 7036874417766400)).
          rewrite <- Zlt_Qlt. exact G. }
        assert (inject_Z r < 7036874417766400)%Q as R'.
        { change 7036874417766400%Q with (inject_Z (Z.pos 7036874417766400)).
          rewrite <- Zlt_Qlt. lia. }
        split; lra.
  - (* enough digits in the quotient *)
    rewrite fexp_eq.
    destruct (Z.eq_dec e' (-1074)) as [-> | Hne]; [lia |].
    assert (Z.pos sh = 106 - d1) as Hsh' by lia.
    assert (2 ^ 105 <= m') as Hm105.
    { unfold m'. rewrite Hsh'.
      replace 105 with ((d1 - 1) + (106 - d1)) by lia.
      rewrite Z.pow_add_r by lia. apply Z.mul_le_mono_nonneg_r; [| exact Dl].
      apply Z.pow_nonneg. lia. }
    assert (2 ^ 52 <= q) as Hq52.
    { change (2 ^ 105) with (2 ^ 52 * 2 ^ 53) in Hm105.
      change (2 ^ 52) with 4503599627370496 in *.
      change (2 ^ 53) with 9007199254740992 in *. nia. }
    assert (53 <= Zdigits2 q) by (apply Zdigits2_ge; [lia | exact Hq52]).
    lia.
Qed.

Lemma div100_rounds s m e :
  canonical m e →
  rounds (F2Q s m e / 100) (SF64div (S754_finite s m e) c100).
Proof.
  intros Hc. unfold SF64div, SFdiv, c100. rewrite xorb_false_r.
  destruct (div_core_100 m e Hc) as (q & e' & l & -> & Hq & Hin & Hpre).
  apply (rounds_intro s (rv (Z.pos m) e / 100)); try assumption.
  - pose proof (sgn_F2Q s m e) as H. unfold Qdiv.
    change (/ 100)%Q with (1 # 100)%Q.
    destruct s; unfold sgn in *; lra.
  - pose proof (rv_nonneg (Z.pos m) e ltac:(lia)). unfold Qdiv.
    change (/ 100)%Q with (1 # 100)%Q. lra.
Qed.

Lemma rounds_ext v v' r : (v == v')%Q → rounds v r → rounds v' r.
Proof.
  intros Hv (s & m & E & l & Hs & Hn & Hin & ->).
  assert (sgn s v == sgn s v')%Q as Hsv
    by (destruct s; unfold sgn; rewrite Hv; reflexivity).
  exists s, m, E, l. split; [rewrite <- Hsv; exact Hs |].
  split; [exact Hn |]. split; [| reflexivity].
  eapply inside_ext; [| exact Hin]. rewrite Hsv. reflexivity.
Qed.

Lemma iter_xO_pow2 m d : Z.pos (Pos.iter xO m d) = Z.pos m * 2 ^ Z.pos d.
Proof.
  induction d as [| d IH] using Pos.peano_ind.
  - simpl. lia.
  - rewrite Pos.iter_succ, Pos2Z.inj_xO, IH, Pos2Z.inj_succ, Z.pow_succ_r by lia.
    lia.
Qed.

Lemma shl_align_fst mx ex ez :
  ez <= ex → Z.pos (fst (shl_align mx ex ez)) = Z.pos mx * 2 ^ (ex - ez).
Proof.
  intros H. unfold shl_align.
  destruct (ez - ex) as [| d | d] eqn:Hd; try lia.
  - replace (ex - ez) with 0 by lia. simpl fst. lia.
  - simpl fst. rewrite iter_xO_pow2. f_equal. f_equal. lia.
Qed.

(** [binary_round] first aligns the mantissa on the exponent of its
    binade. *)
Lemma binary_round_rounds (s : bool) (p : positive) (ex : Z) (v : Q) :
  (sgn s v == rv (Z.pos p) ex)%Q →
  rounds v (binary_round prec emax s p ex).
Proof.
  intros Hv. unfold binary_round.
  set (E0 := fexp prec emax (Z.pos (digits2_pos p) + ex)).
  pose proof (digits2_pos_bounds p) as [Dl Du].
  unfold shl_align. destruct (E0 - ex) as [| d | d] eqn:Hd.
  - apply (rounds_intro s (rv (Z.pos p) ex)); [exact Hv | | lia | |].
    + apply rv_nonneg. lia.
    + simpl. rewrite rv_scale, <- rv_0. replace (ex + - ex) with 0 by lia.
      reflexivity.
    + change (Zdigits2 (Z.pos p)) with (Z.pos (digits2_pos p)). fold E0. lia.
  - apply (rounds_intro s (rv (Z.pos p) ex)); [exact Hv | | lia | |].
    + apply rv_nonneg. lia.
    + simpl. rewrite rv_scale, <- rv_0. replace (ex + - ex) with 0 by lia.
      reflexivity.
    + change (Zdigits2 (Z.pos p)) with (Z.pos (digits2_pos p)). fold E0. lia.
  - apply (rounds_intro s (rv (Z.pos p) ex)); [exact Hv | | lia | |].
    + apply rv_nonneg. lia.
    + simpl. rewrite rv_scale, <- rv_0, iter_xO_pow2, rv_mul_pow2 by lia.
      replace (ex + - E0) with (0 + Z.pos d) by lia. reflexivity.
    + assert (Zdigits2 (Z.pos (Pos.iter xO p d)) = Z.pos (digits2_pos p) + Z.pos d)
        as ->.
      { apply Zdigits2_unique; [lia |]. rewrite iter_xO_pow2.
        replace (Z.pos (digits2_pos p) + Z.pos d - 1)
          with ((Z.pos (digits2_pos p) - 1) + Z.pos d) by lia.
        rewrite !Z.pow_add_r by lia.
        assert (0 < 2 ^ Z.pos d) by (apply Z.pow_pos_nonneg; lia). nia. }
      replace (Z.pos (digits2_pos p) + Z.pos d + E0)
        with (Z.pos (digits2_pos p) + ex) by lia.
      fold E0. lia.
Qed.

Lemma add8_rounds s m e :
  rounds (8 + F2Q s m e) (SF64add c8 (S754_finite s m e)).
Proof.
  unfold SF64add, SFadd, c8.
  set (ez := Z.min (-49) e).
  rewrite !shl_align_fst by (unfold ez; lia).
  set (S := cond_Zopp false (Z.pos 4503599627370496 * 2 ^ (-49 - ez))
            + cond_Zopp s (Z.pos m * 2 ^ (e - ez))).
  assert (rv S ez == 8 + F2Q s m e)%Q as HS.
  { unfold S, rv. rewrite inject_Z_plus. simpl (cond_Zopp false _).
    rewrite Qmult_plus_distr_l. apply Qplus_comp.
    - fold (rv (Z.pos 4503599627370496 * 2 ^ (-49 - ez)) ez).
      rewrite rv_mul_pow2 by (unfold ez; lia).
      replace (ez + (-49 - ez)) with (-49) by lia. reflexivity.
    - assert (rv (Z.pos m * 2 ^ (e - ez)) ez == rv (Z.pos m) e)%Q as A.
      { rewrite rv_mul_pow2 by (unfold ez; lia).
        replace (ez + (e - ez)) with e by lia. reflexivity. }
      rewrite F2Q_opp_sgn. destruct s; unfold sgn, cond_Zopp.
      + rewrite <- A. unfold rv. rewrite inject_Z_opp. ring.
      + exact A. }
  unfold binary_normalize. destruct S as [| p | p] eqn:HSp.
  - apply (rounds_ext 0); [| apply rounds_zero].
    rewrite <- HS. unfold rv. ring.
  - apply binary_round_rounds. unfold sgn. symmetry. exact HS.
  - apply binary_round_rounds. unfold sgn. rewrite <- HS. unfold rv.
    change (Z.neg p) with (- Z.pos p). rewrite inject_Z_opp. ring.
Qed.

(** *** One operation after the other *)

Lemma rounds_number v r : rounds v r → xle (SF2X r) (SF2X r).
Proof. intros H. exact (rounds_mono v v r r H H (Qle_refl v)). Qed.

Lemma c8_rounds : rounds 8 c8.
Proof.
  exists false, (2 ^ 52), (-49), loc_Exact. unfold sgn.
  split; [discriminate |]. split; [unfold normal_at; lia |].
  split; reflexivity.
Qed.

Section Stage.
Variable g : spec_float → spec_float.
Variable exact_op : Q → Q.
Hypothesis exact_mono : ∀ a b, (a <= b)%Q → (exact_op a <= exact_op b)%Q.
Hypothesis g_inf : ∀ s, g (S754_infinity s) = S754_infinity s.
Hypothesis g_fin :
  ∀ x X, valid_binary x = true → fin_value x = Some X → rounds (exact_op X) (g x).

Lemma stage_number x :
  valid_binary x = true → xle (SF2X x) (SF2X x) →
  valid_binary (g x) = true ∧ xle (SF2X (g x)) (SF2X (g x)).
Proof.
  intros Hv Hx. destruct x as [s | s | | s m e].
  - pose proof (g_fin _ _ Hv eq_refl) as H.
    split; [exact (rounds_valid _ _ H) | exact (rounds_number _ _ H)].
  - rewrite g_inf. split; [reflexivity | exact Hx].
  - contradiction.
  - pose proof (g_fin _ _ Hv eq_refl) as H.
    split; [exact (rounds_valid _ _ H) | exact (rounds_number _ _ H)].
Qed.

Lemma fin_value_SF2X x X : fin_value x = Some X → SF2X x = XFin X.
Proof. destruct x; simpl; congruence. Qed.

(** An operation that keeps the infinities and rounds a monotone function
    of the finite values is monotone on all numbers. *)
Lemma stage_mono x y :
  valid_binary x = true → valid_binary y = true →
  xle (SF2X x) (SF2X y) → xle (SF2X (g x)) (SF2X (g y)).
Proof.
  intros Hvx Hvy Hle.
  assert (xle (SF2X x) (SF2X x)) as Hx
    by (destruct (SF2X x) as [| [] |], (SF2X y) as [| [] |];
        try contradiction; try exact I; apply xle_fin, Qle_refl).
  assert (xle (SF2X y) (SF2X y)) as Hy
    by (destruct (SF2X x) as [| [] |], (SF2X y) as [| [] |];
        try contradiction; try exact I; apply xle_fin, Qle_refl).
  destruct (stage_number x Hvx Hx) as [_ Hgx].
  destruct (stage_number y Hvy Hy) as [_ Hgy].
  destruct (fin_value x) as [X |] eqn:Fx, (fin_value y) as [Y |] eqn:Fy.
  - apply (rounds_mono (exact_op X) (exact_op Y)); [now apply g_fin | now apply g_fin |].
    apply exact_mono. rewrite (fin_value_SF2X _ _ Fx), (fin_value_SF2X _ _ Fy) in Hle.
    now apply xle_fin.
  - destruct y as [| sy | |]; try discriminate; [| contradiction].
    rewrite (fin_value_SF2X _ _ Fx) in Hle. destruct sy; [contradiction |].
    rewrite g_inf. destruct (SF2X (g x)) as [| [] |]; try contradiction; exact I.
  - destruct x as [| sx | |]; try discriminate; [| contradiction].
    rewrite (fin_value_SF2X _ _ Fy) in Hle. destruct sx; [| contradiction].
    rewrite g_inf. destruct (SF2X (g y)) as [| [] |]; try contradiction; exact I.
  - destruct x as [| sx | |]; try discriminate; [| contradiction].
    destruct y as [| sy | |]; try discriminate; [| contradiction].
    rewrite !g_inf. exact Hle.
Qed.
End Stage.

Lemma div100_stage_inf s : SF64div (S754_infinity s) c100 = S754_infinity s.
Proof. destruct s; reflexivity. Qed.

Lemma div100_stage_fin x X :
  valid_binary x = true → fin_value x = Some X →
  rounds (X / 100) (SF64div x c100).
Proof.
  intros Hv HX. destruct x as [s | s | | s m e]; try discriminate.
  - injection HX as <-. apply (rounds_ext 0); [reflexivity |].
    replace (SF64div (S754_zero s) c100) with (S754_zero s)
      by (destruct s; reflexivity).
    apply rounds_zero.
  - injection HX as <-. apply div100_rounds. exact (valid_canonical _ _ _ Hv).
Qed.

Lemma mul16_stage_inf s : SF64mul (S754_infinity s) c16 = S754_infinity s.
Proof. destruct s; reflexivity. Qed.

Lemma mul16_stage_fin x X :
  valid_binary x = true → fin_value x = Some X →
  rounds (X * 16) (SF64mul x c16).
Proof.
  intros Hv HX. destruct x as [s | s | | s m e]; try discriminate.
  - injection HX as <-. apply (rounds_ext 0); [reflexivity |].
    replace (SF64mul (S754_zero s) c16) with (S754_zero s)
      by (destruct s; reflexivity).
    apply rounds_zero.
  - injection HX as <-. apply mul16_rounds.
Qed.

Lemma add8_stage_inf s : SF64add c8 (S754_infinity s) = S754_infinity s.
Proof. destruct s; reflexivity. Qed.

Lemma add8_stage_fin x X :
  valid_binary x = true → fin_value x = Some X →
  rounds (8 + X) (SF64add c8 x).
Proof.
  intros Hv HX. destruct x as [s | s | | s m e]; try discriminate.
  - injection HX as <-. apply (rounds_ext 8); [reflexivity |].
    replace (SF64add c8 (S754_zero s)) with c8 by (destruct s; reflexivity).
    apply c8_rounds.
  - injection HX as <-. apply add8_rounds.
Qed.

(** *** Rounding error *)

Lemma rne_error t m l :
  inside t m l →
  (inject_Z (round_nearest_even m l) - (1 # 2) <= t
   ∧ t <= inject_Z (round_nearest_even m l) + (1 # 2))%Q.
Proof.
  destruct l as [| []]; simpl; try destruct (Z.even m);
    rewrite ?inject_Z_plus; change (inject_Z 1) with 1%Q; lra.
Qed.

Lemma pow2_le_inv a b : (pow2 a <= pow2 b)%Q → a <= b.
Proof. intros H. apply (Qpower_le_compat_l_inv (2 # 1)); [exact H | reflexivity]. Qed.

Lemma pow2_half E : (pow2 (E - 1) == (1 # 2) * pow2 E)%Q.
Proof. unfold Z.sub. rewrite Z.add_comm, pow2_add. reflexivity. Qed.

(** The rounding of a rational of magnitude at most [2^j] is finite and
    within [2^(j-53)] of it (above the subnormal range). *)
Lemma rounds_error v r j :
  rounds v r → -1022 <= j <= 1023 →
  (- pow2 j <= v ∧ v <= pow2 j)%Q →
  ∃ q, SF2X r = XFin q ∧
       (v - pow2 (j - 53) <= q ∧ q <= v + pow2 (j - 53))%Q.
Proof.
  intros (s & m & E & l & Hs & Hn & Hin & ->) Hj Hv.
  set (a := sgn s v) in *. set (k := round_nearest_even m l).
  assert (a <= pow2 j)%Q as Ha by (unfold a, sgn; destruct s; lra).
  pose proof (rne_error _ _ _ Hin) as [El Eu]. fold k in El, Eu.
  pose proof (rne_bounds m l) as Hk. fold k in Hk.
  pose proof (inside_bounds _ _ _ Hin) as [Bl _].
  pose proof Hn as (HE & [Hm0 Hm] & Hn52).
  pose proof (pow2_pos E) as PE. pose proof (pow2_pos (- E)) as PE'.
  pose proof (pow2_cancel E) as Hc.
  (* the error in units of the last place *)
  assert (rv k E - (1 # 2) * pow2 E <= a ∧ a <= rv k E + (1 # 2) * pow2 E)%Q
    as [Rl Ru].
  { rewrite (value_split a E). unfold rv. split; nra. }
  (* the exponent is bounded by the magnitude *)
  assert ((1 # 2) * pow2 E <= pow2 (j - 53))%Q as Hulp.
  { rewrite <- pow2_half. apply pow2_le.
    destruct (Z.eq_dec E (-1074)) as [-> | Hne]; [lia |].
    specialize (Hn52 ltac:(lia)).
    assert (pow2 (52 + E) <= pow2 j)%Q; [| apply pow2_le_inv in H; lia].
    rewrite <- rv_pow2 by lia.
    eapply Qle_trans; [apply (rv_le _ m); exact Hn52 |].
    eapply Qle_trans; [| exact Ha].
    rewrite (value_split a E). unfold rv.
    apply Qmult_le_compat_r; [exact Bl | lra]. }
  (* no overflow *)
  assert (rv k E < pow2 1024)%Q as Hfin.
  { assert (pow2 j + pow2 (j - 53) < pow2 1024)%Q; [| lra].
    assert (pow2 (j - 53) <= pow2 j)%Q by (apply pow2_le; lia).
    assert (pow2 j <= pow2 1023)%Q by (apply pow2_le; lia).
    assert (pow2 1024 == 2 * pow2 1023)%Q by (rewrite <- pow2_succ; reflexivity).
    assert (pow2 (j - 53) < pow2 j)%Q by (apply pow2_lt; lia).
    lra. }
  destruct (pack_value s k E m Hn Hk) as [F _].
  destruct (F Hfin) as (q & -> & Hq). exists q. split; [reflexivity |].
  unfold a, sgn in *. destruct s; lra.
Qed.

Lemma SF2X_fin_value r q : SF2X r = XFin q → fin_value r = Some q.
Proof. destruct r; simpl; congruence. Qed.

End RoundingFacts.

Section Levels.
Import Binary64 Binary64Facts.

Example getRiskLevelFromScore_60 : getRiskLevelFromScore 60%float = high.
Proof. reflexivity. Qed.

Example getRiskLevelFromScore_below_20 :
  getRiskLevelFromScore 0x1.3ffffffffffffp+4%float = minimal.
Proof. reflexivity. Qed.

Example getRiskLevelFromScore_nan : getRiskLevelFromScore nan = minimal.
Proof. reflexivity. Qed.

Example getRiskLevelFromScore_infinity :
  getRiskLevelFromScore infinity = critical.
Proof. reflexivity. Qed.

(** C1. [getRiskLevelFromScore] cuts the numbers into five bands with
    inclusive lower bounds: [critical] from 80 up, [high] on [60, 80),
    [moderate] on [40, 60), [low] on [20, 40) and [minimal] everywhere
    else, NaN included.  No input is rejected: everything at or above 80
    (infinity too) is [critical], everything below 0 is [minimal], and on
    [0, 100] the band of [minimal] is [0, 20), so the five bands cover
    [0, 100] without gap or overlap. *)
Theorem getRiskLevelFromScore_bands (score : number) :
  (getRiskLevelFromScore score = critical ↔ at_least 80 score) ∧
  (getRiskLevelFromScore score = high ↔
     at_least 60 score ∧ below 80 score) ∧
  (getRiskLevelFromScore score = moderate ↔
     at_least 40 score ∧ below 60 score) ∧
  (getRiskLevelFromScore score = low ↔
     at_least 20 score ∧ below 40 score) ∧
  (getRiskLevelFromScore score = minimal ↔ ¬ at_least 20 score) ∧
  (below 0 score → getRiskLevelFromScore score = minimal) ∧
  (at_least 0 score →
     (getRiskLevelFromScore score = minimal ↔ below 20 score)).
Proof.
  pose proof (ge_cases _ score _ denotes_80) as H80.
  pose proof (ge_cases _ score _ denotes_60) as H60.
  pose proof (ge_cases _ score _ denotes_40) as H40.
  pose proof (ge_cases _ score _ denotes_20) as H20.
  unfold getRiskLevelFromScore, at_least, below.
  destruct (value score) as [ | [] | p].
  - rewrite H80, H60, H40, H20. unfold xle, xlt. simpl.
    intuition discriminate.
  - rewrite H80, H60, H40, H20. unfold xle, xlt. simpl.
    intuition discriminate.
  - rewrite H80, H60, H40, H20. unfold xle, xlt. simpl.
    intuition discriminate.
  - rewrite !xle_fin, !xlt_fin.
    destruct (ge score 80%float), (ge score 60%float), (ge score 40%float),
      (ge score 20%float);
      repeat split; intros;
      repeat match goal with
             | H : _ ∧ _ |- _ => destruct H
             | H : true = true ↔ _ |- _ => apply proj1 in H; specialize (H eq_refl)
             | H : false = true ↔ _ |- _ =>
                 apply proj2 in H;
                 assert (¬ _) by (intros ?; specialize (H ltac:(assumption)); discriminate);
                 clear H
             end;
      try discriminate; try reflexivity; try lra.
Qed.

Lemma severity_range (l : RiskLevel) : 0 <= severity l <= 4.
Proof. destruct l; simpl; lia. Qed.

Lemma severity_injective (l1 l2 : RiskLevel) :
  severity l1 = severity l2 → l1 = l2.
Proof. destruct l1, l2; simpl; intros; congruence || lia. Qed.

Lemma getRiskLevelFromScore_monotone (s1 s2 : number) :
  le s1 s2 = true →
  severity (getRiskLevelFromScore s1) <= severity (getRiskLevelFromScore s2).
Proof.
  intros Hle. unfold getRiskLevelFromScore.
  destruct (ge s1 80%float) eqn:A80.
  { rewrite (ge_mono _ _ _ A80 Hle). reflexivity. }
  destruct (ge s1 60%float) eqn:A60.
  { rewrite (ge_mono _ _ _ A60 Hle). destruct (ge s2 80%float); simpl; lia. }
  destruct (ge s1 40%float) eqn:A40.
  { rewrite (ge_mono _ _ _ A40 Hle).
    destruct (ge s2 80%float), (ge s2 60%float); simpl; lia. }
  destruct (ge s1 20%float) eqn:A20.
  { rewrite (ge_mono _ _ _ A20 Hle).
    destruct (ge s2 80%float), (ge s2 60%float), (ge s2 40%float);
      simpl; lia. }
  apply severity_range.
Qed.

(** C3. [getRiskLevelFromScore] returns one of the five levels, its
    severity does not decrease when the score increases ([s1 <= s2] being
    the comparison of the two numbers), and it sends 80 to [critical],
    79.9 to [high] and 0 to [minimal]. *)
Theorem getRiskLevelFromScore_order :
  (∀ s, getRiskLevelFromScore s ∈ [minimal; low; moderate; high; critical]) ∧
  (∀ s1 s2, le s1 s2 = true →
     severity (getRiskLevelFromScore s1)
     <= severity (getRiskLevelFromScore s2)) ∧
  getRiskLevelFromScore 80%float = critical ∧
  getRiskLevelFromScore lit_79_9 = high ∧
  getRiskLevelFromScore 0%float = minimal.
Proof.
  split; [| split; [exact getRiskLevelFromScore_monotone |]].
  - intros s. destruct (getRiskLevelFromScore s); set_solver.
  - repeat split; reflexivity.
Qed.

(** The comparison [s1 <= s2] of two numbers is the order of their exact
    values. *)
Lemma le_value (s1 s2 : number) :
  le s1 s2 = true ↔ xle (value s1) (value s2).
Proof. apply leb_value. Qed.

(** The literal [79.9] is the binary64 number nearest to 799/10: it is
    within half a unit in the last place, [2^-47]. *)
Lemma lit_79_9_nearest :
  ∃ q, value lit_79_9 = XFin q ∧
       (q - pow2 (-47) <= 799 # 10 <= q + pow2 (-47))%Q.
Proof.
  eexists. split; [reflexivity |].
  split; vm_compute; discriminate.
Qed.

(** C9. The conditional chain written inline in the index breakdown of
    [RegionDetail] and [getRiskLevelFromScore] give the same level on
    every number. *)
Theorem indexBreakdown_level_agrees (value : number) :
  indexBreakdown_level value = getRiskLevelFromScore value.
Proof.
  unfold indexBreakdown_level, getRiskLevelFromScore.
  destruct (ge value 80%float), (ge value 60%float), (ge value 40%float),
    (ge value 20%float); reflexivity.
Qed.
End Levels.

(** ** Marker sizes *)

Section MarkerSize.
Import Binary64 Binary64Facts RoundingFacts.

Example getMarkerSize_50 : getMarkerSize 50%float = 16%float.
Proof. reflexivity. Qed.

Example getMarkerSize_infinity : getMarkerSize infinity = infinity.
Proof. reflexivity. Qed.

Lemma Prim2SF_getMarkerSize (s : number) :
  Prim2SF (getMarkerSize s)
  = SF64add c8 (SF64mul (SF64div (Prim2SF s) c100) c16).
Proof.
  unfold getMarkerSize. rewrite add_spec, mul_spec, div_spec. reflexivity.
Qed.

(** The size does not decrease when the score increases, on all numbers. *)
Lemma getMarkerSize_monotone (s1 s2 : number) :
  le s1 s2 = true → le (getMarkerSize s1) (getMarkerSize s2) = true.
Proof.
  unfold le. rewrite !leb_value. unfold value.
  rewrite !Prim2SF_getMarkerSize. intros Hle.
  pose proof (Prim2SF_valid s1) as V1. pose proof (Prim2SF_valid s2) as V2.
  set (x1 := Prim2SF s1) in *. set (x2 := Prim2SF s2) in *.
  assert (xle (SF2X x1) (SF2X x1) ∧ xle (SF2X x2) (SF2X x2)) as [N1 N2].
  { destruct (SF2X x1) as [| [] |], (SF2X x2) as [| [] |];
      try contradiction; split; try exact I; apply xle_fin, Qle_refl. }
  (* the quotient *)
  pose proof (stage_mono (λ x, SF64div x c100) (λ X, X / 100)%Q) as Dm.
  pose proof (stage_number (λ x, SF64div x c100) (λ X, X / 100)%Q
                div100_stage_inf div100_stage_fin) as Dn.
  destruct (Dn x1 V1 N1) as [Va1 Na1]. destruct (Dn x2 V2 N2) as [Va2 Na2].
  specialize (Dm ltac:(intros a b H; unfold Qdiv; change (/ 100)%Q with (1 # 100)%Q; lra)
                 div100_stage_inf div100_stage_fin x1 x2 V1 V2 Hle).
  (* the product *)
  pose proof (stage_mono (λ x, SF64mul x c16) (λ X, X * 16)%Q) as Mm.
  pose proof (stage_number (λ x, SF64mul x c16) (λ X, X * 16)%Q
                mul16_stage_inf mul16_stage_fin) as Mn.
  destruct (Mn _ Va1 Na1) as [Vb1 Nb1]. destruct (Mn _ Va2 Na2) as [Vb2 Nb2].
  specialize (Mm ltac:(intros a b H; cbv beta; lra)
                 mul16_stage_inf mul16_stage_fin _ _ Va1 Va2 Dm).
  (* the sum *)
  exact (stage_mono (λ x, SF64add c8 x) (λ X, 8 + X)%Q
           ltac:(intros a b H; cbv beta; lra) add8_stage_inf add8_stage_fin
           _ _ Vb1 Vb2 Mm).
Qed.

(** On [0, 100] the computed size is within [2^-46] of the exact
    interpolation [8 + 16 * (s / 100)]. *)
Lemma getMarkerSize_accuracy (s : number) (X : Q) :
  value s = XFin X → (0 <= X <= 100)%Q →
  ∃ q, value (getMarkerSize s) = XFin q ∧
       (8 + X / 100 * 16 - pow2 (-46) <= q
        ∧ q <= 8 + X / 100 * 16 + pow2 (-46))%Q.
Proof.
  unfold value. rewrite Prim2SF_getMarkerSize. intros HX [X0 X100].
  pose proof (Prim2SF_valid s) as V. set (x := Prim2SF s) in *.
  apply SF2X_fin_value in HX.
  (* the quotient *)
  pose proof (div100_stage_fin x X V HX) as Ra.
  destruct (rounds_error _ _ 0 Ra ltac:(lia)) as (A & HA & Al & Au).
  { unfold Qdiv. change (/ 100)%Q with (1 # 100)%Q.
    change (pow2 0) with 1%Q. lra. }
  pose proof (rounds_valid _ _ Ra) as Va. apply SF2X_fin_value in HA.
  (* the product *)
  pose proof (mul16_stage_fin _ A Va HA) as Rb.
  change (pow2 (0 - 53)) with (1 # 9007199254740992)%Q in Al, Au.
  unfold Qdiv in Al, Au. change (/ 100)%Q with (1 # 100)%Q in Al, Au.
  destruct (rounds_error _ _ 5 Rb ltac:(lia)) as (B & HB & Bl & Bu).
  { change (pow2 5) with 32%Q. lra. }
  pose proof (rounds_valid _ _ Rb) as Vb. apply SF2X_fin_value in HB.
  (* the sum *)
  pose proof (add8_stage_fin _ B Vb HB) as Rc.
  change (pow2 (5 - 53)) with (1 # 281474976710656)%Q in Bl, Bu.
  destruct (rounds_error _ _ 5 Rc ltac:(lia)) as (C & HC & Cl & Cu).
  { change (pow2 5) with 32%Q. lra. }
  change (pow2 (5 - 53)) with (1 # 281474976710656)%Q in Cl, Cu.
  exists C. split; [exact HC |].
  unfold Qdiv. change (/ 100)%Q with (1 # 100)%Q.
  change (pow2 (-46)) with (1 # 70368744177664)%Q. lra.
Qed.

(** Between 0 and 100 the size stays between 8 and 24. *)
Lemma getMarkerSize_range (s : number) :
  le 0%float s = true → le s 100%float = true →
  le 8%float (getMarkerSize s) = true ∧ le (getMarkerSize s) 24%float = true.
Proof.
  intros H0 H100. split.
  - exact (getMarkerSize_monotone 0%float s H0).
  - exact (getMarkerSize_monotone s 100%float H100).
Qed.

(** The size is not strictly increasing: rounding absorbs a score as small
    as [1e-20]. *)
Lemma getMarkerSize_plateau :
  lt 0%float 0x1.79ca10c924223p-67%float = true ∧
  getMarkerSize 0x1.79ca10c924223p-67%float = getMarkerSize 0%float.
Proof. split; reflexivity. Qed.

(** C4. [getMarkerSize] is the expression [8 + (s / 100) * 16] in binary64
    arithmetic, and on [0, 100] it is within [2^-46] of the exact linear
    interpolation.  It is monotonically increasing ([s1 <= s2] gives
    [getMarkerSize s1 <= getMarkerSize s2] on all numbers), it sends 0 to 8
    and 100 to 24, so that scores in [0, 100] have sizes in [8, 24]; it is
    not clamped: -100 gives -8 and 200 gives 40. *)
Theorem getMarkerSize_interpolation :
  (∀ s, getMarkerSize s = (8 + s / 100 * 16)%float) ∧
  (∀ s X, value s = XFin X → (0 <= X <= 100)%Q →
     ∃ q, value (getMarkerSize s) = XFin q ∧
          (8 + X / 100 * 16 - pow2 (-46) <= q
           ∧ q <= 8 + X / 100 * 16 + pow2 (-46))%Q) ∧
  (∀ s1 s2, le s1 s2 = true →
     le (getMarkerSize s1) (getMarkerSize s2) = true) ∧
  getMarkerSize 0%float = 8%float ∧
  getMarkerSize 100%float = 24%float ∧
  (∀ s, le 0%float s = true → le s 100%float = true →
     le 8%float (getMarkerSize s) = true
     ∧ le (getMarkerSize s) 24%float = true) ∧
  (∃ s, lt s 0%float = true ∧ lt (getMarkerSize s) 8%float = true) ∧
  (∃ s, lt 100%float s = true ∧ lt 24%float (getMarkerSize s) = true).
Proof.
  split; [reflexivity |].
  split; [exact getMarkerSize_accuracy |].
  split; [exact getMarkerSize_monotone |].
  split; [reflexivity |]. split; [reflexivity |].
  split; [exact getMarkerSize_range |].
  split.
  - exists (-100)%float. split; reflexivity.
  - exists 200%float. split; reflexivity.
Qed.

End MarkerSize.

(** ** Alert mutations and the cache *)

Section AlertMutations.
Import ReactQuery Hooks.
Context {Data Alert : Type}.
Variable server : request → outcome Alert.
Implicit Types (c : gmap query_key (query Data)) (k : query_key).

Lemma partialMatchKey_family (family : string) k :
  partialMatchKey k [str family] = true ↔ in_family family k.
Proof.
  unfold in_family, str. destruct k as [| [a | f] k]; simpl.
  - split; discriminate.
  - rewrite andb_true_r, bool_decide_eq_true. split; congruence.
  - split; discriminate.
Qed.

Lemma lookup_invalidateQueries (filter : query_key) c k :
  invalidateQueries filter c !! k
  = (λ q, if partialMatchKey k filter then invalidate q else q) <$> c !! k.
Proof.
  unfold invalidateQueries. rewrite map_lookup_imap.
  by destruct (c !! k).
Qed.

Lemma isStale_invalidate (q : query Data) : isStale (invalidate q) = true.
Proof. reflexivity. Qed.

Lemma invalidateQueries_alerts c :
  alerts_invalidated c (invalidateQueries [str "alerts"] c).
Proof.
  intros k. split.
  - intros Hk. apply partialMatchKey_family in Hk as Hm.
    assert (invalidateQueries [str "alerts"] c !! k = invalidate <$> c !! k)
      as Hlook.
    { rewrite lookup_invalidateQueries, Hm. reflexivity. }
    assert (needsFetch (invalidateQueries [str "alerts"] c) k = true)
      as Hfetch.
    { unfold needsFetch. rewrite Hlook. by destruct (c !! k). }
    split; [exact Hlook |]. split; [exact Hfetch |].
    intros o response <- He. unfold read. by rewrite He, Hfetch.
  - intros Hk. rewrite lookup_invalidateQueries.
    destruct (partialMatchKey k [str "alerts"]) eqn:Hm.
    + by apply partialMatchKey_family in Hm.
    + by destruct (c !! k).
Qed.

Lemma families_disjoint (f1 f2 : string) k :
  in_family f1 k → in_family f2 k → f1 = f2.
Proof. unfold in_family. congruence. Qed.

(** The keys of the hooks, by family. *)
Lemma alert_hook_keys params severity limit id :
  in_family "alerts" (queryKey (useAlerts params)) ∧
  in_family "alerts" (queryKey (useActiveAlerts severity limit)) ∧
  in_family "alerts" (queryKey (useAlert id)).
Proof. by repeat split. Qed.

Lemma risk_hook_keys continent level regionCode diseaseType riskLevel limit :
  in_family "risks" (queryKey (useRiskSummary continent level)) ∧
  in_family "risks" (queryKey (useRiskMap level)) ∧
  in_family "risks" (queryKey (useRegionRisks regionCode)) ∧
  in_family "risks" (queryKey (useDiseaseRisks diseaseType riskLevel limit)).
Proof. by repeat split. Qed.

Lemma region_hook_keys params code :
  in_family "regions" (queryKey (useRegions params)) ∧
  in_family "regions" (queryKey (useRegion code)) ∧
  in_family "regions" (queryKey (useRegionChildren code)).
Proof. by repeat split. Qed.

(** C2. When the remote service accepts an acknowledge or a resolve, the
    mutation leaves every query of the alerts family invalidated, whatever
    the filter in its key, so that the next read of the key (through an
    enabled [useQuery], as those of the alert lists always are) fetches and
    serves the fetched value; every query outside the family, those of the
    risks and regions families among them, is exactly as before. *)
Theorem alert_mutation_success_invalidates c :
  (∀ id notes r,
     server (Acknowledge id notes) = Resolved r →
     alerts_invalidated c
       (mutate (useAcknowledgeAlert server) (id, notes) c).2) ∧
  (∀ id resolution_notes was_false_positive r,
     server (Resolve id resolution_notes was_false_positive) = Resolved r →
     alerts_invalidated c
       (mutate (useResolveAlert server)
               (id, resolution_notes, was_false_positive) c).2) ∧
  (∀ c' k, alerts_invalidated c c' →
     in_family "risks" k ∨ in_family "regions" k → c' !! k = c !! k) ∧
  (∀ c' params severity limit response, alerts_invalidated c c' →
     (read (useAlerts params) response c').1 = Some response ∧
     (read (useActiveAlerts severity limit) response c').1 = Some response) ∧
  (∀ c' continent level params, alerts_invalidated c c' →
     c' !! queryKey (useRiskSummary continent level)
     = c !! queryKey (useRiskSummary continent level) ∧
     c' !! queryKey (useRiskMap level) = c !! queryKey (useRiskMap level) ∧
     c' !! queryKey (useRegions params) = c !! queryKey (useRegions params)).
Proof.
  split; [| split; [| split; [| split]]].
  - intros id notes r Hr. unfold mutate. simpl. rewrite Hr. simpl.
    apply invalidateQueries_alerts.
  - intros id rn fp r Hr. unfold mutate. simpl. rewrite Hr. simpl.
    apply invalidateQueries_alerts.
  - intros c' k Hinv Hk. apply Hinv. intros Ha.
    destruct Hk as [Hk | Hk];
      pose proof (families_disjoint _ _ _ Ha Hk); discriminate.
  - intros c' params severity limit response Hinv. split.
    + by apply (Hinv (queryKey (useAlerts params))).
    + by apply (Hinv (queryKey (useActiveAlerts severity limit))).
  - intros c' continent level params Hinv.
    repeat split; apply Hinv; discriminate.
Qed.

(** C7. When the remote service rejects an acknowledge or a resolve, the
    mutation performs no invalidation: the cache that comes out is the
    cache that went in, alerts queries included. *)
Theorem alert_mutation_failure_keeps_cache c :
  (∀ id notes,
     server (Acknowledge id notes) = Rejected →
     mutate (useAcknowledgeAlert server) (id, notes) c = (Rejected, c)) ∧
  (∀ id resolution_notes was_false_positive,
     server (Resolve id resolution_notes was_false_positive) = Rejected →
     mutate (useResolveAlert server)
            (id, resolution_notes, was_false_positive) c = (Rejected, c)).
Proof.
  split.
  - intros id notes Hr. unfold mutate. simpl. by rewrite Hr.
  - intros id rn fp Hr. unfold mutate. simpl. by rewrite Hr.
Qed.

End AlertMutations.

(** The two mutations on the sample cache: the acknowledge is accepted and
    invalidates both alert queries and nothing else; the resolve is
    rejected and returns the cache it was given. *)
Example acknowledge_on_sample_cache :
  let c' := (ReactQuery.mutate
               (Hooks.useAcknowledgeAlert Hooks.sample_server)
               (42, Some "reviewed") Hooks.sample_cache).2 in
  c' !! ReactQuery.queryKey (Hooks.useAlerts None)
  = Some (ReactQuery.Query (Some "3 alerts") false true) ∧
  c' !! ReactQuery.queryKey (Hooks.useActiveAlerts (Some "critical") (Some 5))
  = Some (ReactQuery.Query (Some "1 active alert") false true) ∧
  c' !! ReactQuery.queryKey (Hooks.useRiskMap None)
  = Some (ReactQuery.Query (Some "map") false false) ∧
  c' !! ReactQuery.queryKey (Hooks.useRegion "KE")
  = Some (ReactQuery.Query (Some "Kenya") false false) ∧
  ReactQuery.read (Hooks.useAlerts None) "2 alerts" c'
  = (Some "2 alerts",
     <[ReactQuery.queryKey (Hooks.useAlerts None)
       := ReactQuery.Query (Some "2 alerts") false false]> c') ∧
  ReactQuery.read (Hooks.useRiskMap None) "new map" c'
  = (Some "map", c').
Proof. repeat split; reflexivity. Qed.

Example resolve_on_sample_cache :
  ReactQuery.mutate (Hooks.useResolveAlert Hooks.sample_server)
                    (42, Some "done", Some false) Hooks.sample_cache
  = (ReactQuery.Rejected, Hooks.sample_cache).
Proof. reflexivity. Qed.

(** ** Refresh cadences *)

Section Cadences.
Import ReactQuery Hooks.

Lemma truthy_string_nonempty (s : string) :
  truthy_string s = true ↔ s ≠ "".
Proof.
  unfold truthy_string. rewrite negb_true_iff. apply String.eqb_neq.
Qed.

(** C6. The risk summary and the map snapshot poll every 300000 ms, the
    alert lists every 60000 ms; the queries of one region and of one
    disease have no polling interval and are enabled exactly when the
    region code, or the disease type, is not the empty string. *)
Theorem refresh_cadences :
  (∀ continent level,
     refetchInterval (useRiskSummary continent level) = Some 300000) ∧
  (∀ level, refetchInterval (useRiskMap level) = Some 300000) ∧
  (∀ params, refetchInterval (useAlerts params) = Some 60000) ∧
  (∀ severity limit,
     refetchInterval (useActiveAlerts severity limit) = Some 60000) ∧
  (∀ regionCode,
     refetchInterval (useRegionRisks regionCode) = None ∧
     (enabled (useRegionRisks regionCode) = true ↔ regionCode ≠ "")) ∧
  (∀ code,
     refetchInterval (useRegion code) = None ∧
     (enabled (useRegion code) = true ↔ code ≠ "")) ∧
  (∀ diseaseType riskLevel limit,
     refetchInterval (useDiseaseRisks diseaseType riskLevel limit) = None ∧
     (enabled (useDiseaseRisks diseaseType riskLevel limit) = true
      ↔ diseaseType ≠ "")).
Proof.
  repeat split; try reflexivity; simpl;
    try apply truthy_string_nonempty; apply truthy_string_nonempty.
Qed.

End Cadences.

(** ** Requests and query keys *)

Section Requests.
Import ReactQuery Hooks Api HookCalls.

Lemma lookup_object {V} (fields : list (string * option V)) (k : string) :
  NoDup fields.*1 →
  object fields !! k = (list_to_map fields : gmap string (option V)) !! k ≫= id.
Proof.
  unfold object. induction fields as [|[k' [v|]] fields IH]; simpl; intros Hnd.
  - by rewrite !lookup_empty.
  - apply NoDup_cons in Hnd as [Hk' Hnd].
    destruct (decide (k = k')) as [->|Hne].
    + by rewrite !lookup_insert_eq.
    + rewrite !lookup_insert_ne by done. by apply IH.
  - apply NoDup_cons in Hnd as [Hk' Hnd].
    destruct (decide (k = k')) as [->|Hne].
    + rewrite lookup_insert_eq. simpl. etrans; [by apply IH |].
      by rewrite (not_elem_of_list_to_map_1 _ _ Hk').
    + rewrite lookup_insert_ne by done. by apply IH.
Qed.




Lemma opt_str_inj : Inj (=) (=) opt_str.
Proof. intros [a|] [b|]; unfold opt_str; simpl; congruence. Qed.

Lemma opt_num_inj : Inj (=) (=) opt_num.
Proof. intros [a|] [b|]; unfold opt_num; simpl; congruence. Qed.



Lemma object_singleton {V} (k : string) (v : V) :
  object [(k, Some v)] = {[ k := v ]}.
Proof. unfold object. simpl. by rewrite insert_empty. Qed.

Lemma getMap_params (l : option string) :
  Api.params (risksApi.getMap l)
  = {[ "level" := AString (or_string l "country") ]}.
Proof. unfold risksApi.getMap, get. by rewrite object_singleton. Qed.

(** X2. The request of [useRiskMap] carries [level || 'country']: two
    calls send the same request exactly when their levels are equal after
    this default, which [undefined], the empty string and ['country'] all
    take; the query key holds the level as it was given, so calls with
    different levels are different queries even when their requests are
    the same. *)
Theorem getMap_default_level (l1 l2 : option string) :
  (queryFn (UseRiskMap l1) = queryFn (UseRiskMap l2)
     ↔ or_string l1 "country" = or_string l2 "country") ∧
  (or_string l1 "country" = "country"
     ↔ l1 = None ∨ l1 = Some "" ∨ l1 = Some "country") ∧
  (l1 ≠ l2 → queryKey (options (UseRiskMap l1))
             ≠ queryKey (options (UseRiskMap l2))).
Proof.
  split; [|split].
  - simpl. split.
    + intros H. apply (f_equal Api.params) in H.
      rewrite !getMap_params in H.
      apply (f_equal (λ m : gmap string atom, m !! "level")) in H.
      rewrite !lookup_singleton_eq in H. congruence.
    + unfold risksApi.getMap. by intros ->.
  - unfold or_string, truthy_string. destruct l1 as [s|].
    + destruct (String.eqb_spec s "") as [->|Hs]; simpl.
      * split; [auto | done].
      * split; [intros ->; auto | intros [?|[?|?]]; congruence].
    + split; [auto | done].
  - intros Hne H. apply Hne. simpl in H. unfold str, opt_str in H.
    destruct l1, l2; by simplify_eq/=.
Qed.

Lemma list_ascii_app (a b : string) :
  String.list_ascii_of_string (a +:+ b)
  = String.list_ascii_of_string a ++ String.list_ascii_of_string b.
Proof. induction a as [|c a IH]; simpl; [done | by rewrite IH]. Qed.

Lemma list_ascii_inj : Inj (=) (=) String.list_ascii_of_string.
Proof.
  intros a b H. rewrite <- (String.string_of_list_ascii_of_string a),
    <- (String.string_of_list_ascii_of_string b). by rewrite H.
Qed.

Lemma append_inv_tail (a b t : string) : a +:+ t = b +:+ t → a = b.
Proof.
  intros H. apply list_ascii_inj.
  apply (f_equal String.list_ascii_of_string) in H.
  rewrite !list_ascii_app in H. by apply app_inv_tail in H.
Qed.

Lemma acknowledge_resolve_url (a b : string) :
  a +:+ "/acknowledge" ≠ b +:+ "/resolve".
Proof.
  intros H. apply (f_equal String.list_ascii_of_string) in H.
  rewrite !list_ascii_app in H.
  apply (f_equal (@rev _)) in H. rewrite !rev_app_distr in H.
  simpl in H. discriminate.
Qed.

Lemma object_notes_inj (a b : option string) :
  (object [("notes", JString <$> a)] : gmap string json)
  = object [("notes", JString <$> b)] → a = b.
Proof.
  intros H. apply (f_equal (λ m : gmap string json, m !! "notes")) in H.
  destruct a, b; vm_compute in H; congruence.
Qed.

Lemma object_resolve_inj (a1 b1 : option string) (a2 b2 : option bool) :
  (object [ ("resolution_notes", JString <$> a1);
            ("was_false_positive", JBoolean <$> a2) ] : gmap string json)
  = object [ ("resolution_notes", JString <$> b1);
             ("was_false_positive", JBoolean <$> b2) ] →
  a1 = b1 ∧ a2 = b2.
Proof.
  intros H.
  pose proof (f_equal (λ m : gmap string json, m !! "resolution_notes") H) as H1.
  pose proof (f_equal (λ m : gmap string json, m !! "was_false_positive") H) as H2.
  cbv beta in H1, H2.
  rewrite !lookup_object in H1, H2
    by (apply (bool_decide_unpack _); vm_compute; exact I).
  vm_compute in H1, H2.
  destruct a1, b1; try discriminate; destruct a2, b2; try discriminate;
    split; congruence.
Qed.

(** X3. The request of an alert mutation determines the mutation: an
    acknowledge and a resolve never send the same request, and two
    acknowledges, or two resolves, send the same request only for the same
    alert with the same notes and flag. *)
Theorem mutation_request_injective (r1 r2 : request) :
  mutation_request r1 = mutation_request r2 → r1 = r2.
Proof.
  destruct r1 as [id1 n1 | id1 n1 f1], r2 as [id2 n2 | id2 n2 f2];
    unfold mutation_request, alertsApi.acknowledge, alertsApi.resolve, post;
    intros H; injection H as Hurl Hbody;
    match type of Hurl with
    | "" +:+ ?a = "" +:+ ?b => change (a = b) in Hurl
    end.
  - apply append_inv_tail in Hurl. apply (inj pretty) in Hurl.
    apply object_notes_inj in Hbody. congruence.
  - by apply acknowledge_resolve_url in Hurl.
  - symmetry in Hurl. by apply acknowledge_resolve_url in Hurl.
  - apply append_inv_tail in Hurl. apply (inj pretty) in Hurl.
    apply object_resolve_inj in Hbody as [-> ->]. congruence.
Qed.

Lemma mutation_request_injective_witness :
  Acknowledge 42 (Some "reviewed") = Acknowledge 42 (Some "reviewed").
Proof. apply mutation_request_injective. reflexivity. Defined.

End Requests.

(** ** The life of a query *)

Section Lifecycle.
Import ReactQuery Hooks Api HookCalls.
Context {Data Alert : Type}.
Variable server : request → outcome Alert.
Implicit Types (c : gmap query_key (query Data)) (k : query_key).






End Lifecycle.


(** ** Navigation *)

Section Navigation.
Import Api HookCalls Router.

Lemma plain_char_sep (c : ascii) :
  plain_char c = true →
  Ascii.eqb c "/" = false ∧ Ascii.eqb c "?" = false ∧ Ascii.eqb c "#" = false.
Proof.
  destruct c as [[] [] [] [] [] [] [] []]; vm_compute; intuition discriminate.
Qed.

Lemma pathname_plain (s : string) : plain s = true → pathname s = s.
Proof.
  induction s as [|c s IH]; simpl; [done |].
  intros [Hc Hs]%andb_true_iff.
  destruct (plain_char_sep c Hc) as (_ & -> & ->). simpl. by rewrite IH.
Qed.

Lemma split_plain (s : string) : plain s = true → split s = [s].
Proof.
  induction s as [|c s IH]; simpl; [done |].
  intros [Hc Hs]%andb_true_iff.
  destruct (plain_char_sep c Hc) as (-> & _ & _). by rewrite IH.
Qed.

Lemma strip_trailing_cons (s : string) (segs : list string) :
  s ≠ "" → ∃ r, strip_trailing (s :: segs) = s :: r.
Proof.
  intros Hs. simpl. destruct (strip_trailing segs) as [|x r].
  - apply String.eqb_neq in Hs. rewrite Hs. by exists [].
  - by exists (x :: r).
Qed.

(** No route of [App] matches a path whose first segment is [alerts]. *)
Lemma App_alerts (rest : list string) :
  match_segments (compile "/") (strip_trailing ("alerts" :: rest)) = None ∧
  match_segments (compile "/regions/:code")
                 (strip_trailing ("alerts" :: rest)) = None.
Proof.
  destruct (strip_trailing_cons "alerts" rest) as [r ->]; [done |].
  split; reflexivity.
Qed.

(** X6. [App] declares the routes [/] and [/regions/:code] only: the
    three places that navigate to the alerts (a click on an alert card and
    the button under the list in [Dashboard], the banner of [RegionDetail])
    lead to a location that no route matches, for every alert and every
    region. *)
Theorem alert_navigation_unrouted :
  (∀ alertId, navigate (Dashboard.handleAlertClick alertId) = None) ∧
  navigate Dashboard.viewAllAlerts = None ∧
  (∀ code, navigate (RegionDetail.viewAlerts code) = None).
Proof.
  split; [| split].
  - intros id. unfold navigate, Dashboard.handleAlertClick.
    change (pathname ("/alerts/" +:+ number_to_string id))
      with ("/alerts/" +:+ pathname (number_to_string id)).
    unfold App, matchPath.
    change (split ("/alerts/" +:+ pathname (number_to_string id)))
      with ("" :: "alerts" :: split (pathname (number_to_string id))).
    by destruct (App_alerts (split (pathname (number_to_string id))))
      as [-> ->].
  - reflexivity.
  - intros code. reflexivity.
Qed.

(** X7. A click on a region whose code is made of letters, digits, [-] and
    [_] navigates to the detail page with that code as its parameter, and
    the page makes two enabled queries, one for the region and one for its
    risks, each on that code. *)
Theorem region_click_opens_detail (code : string) :
  plain code = true → code ≠ "" →
  navigate (Dashboard.handleRegionClick code)
  = Some (RegionDetailPage (Some code)) ∧
  Forall (λ h, ReactQuery.enabled (options h) = true)
         (RegionDetail.queries (Some code)) ∧
  queryFn <$> RegionDetail.queries (Some code)
  = [ regionsApi.getById code; risksApi.getRegionRisks code ].
Proof.
  intros Hplain Hne.
  assert (Ht : Hooks.truthy_string code = true).
  { unfold Hooks.truthy_string. apply negb_true_iff. by apply String.eqb_neq. }
  split; [| split].
  - unfold navigate, Dashboard.handleRegionClick.
    change (pathname ("/regions/" +:+ code))
      with ("/regions/" +:+ pathname code).
    rewrite (pathname_plain code Hplain).
    unfold App, matchPath.
    change (split ("/regions/" +:+ code))
      with ("" :: "regions" :: split code).
    rewrite (split_plain code Hplain).
    apply String.eqb_neq in Hne. simpl. rewrite Hne. simpl. rewrite Hne.
    simpl. by rewrite lookup_insert_eq.
  - unfold RegionDetail.queries, or_string. rewrite Ht.
    repeat constructor; exact Ht.
  - unfold RegionDetail.queries, or_string. by rewrite Ht.
Qed.

Lemma region_click_opens_detail_witness :
  navigate (Dashboard.handleRegionClick "KE")
  = Some (RegionDetailPage (Some "KE")) ∧
  Forall (λ h, ReactQuery.enabled (options h) = true)
         (RegionDetail.queries (Some "KE")) ∧
  queryFn <$> RegionDetail.queries (Some "KE")
  = [ regionsApi.getById "KE"; risksApi.getRegionRisks "KE" ].
Proof. apply region_click_opens_detail; [reflexivity | discriminate]. Defined.

End Navigation.

(** ** Families and endpoints *)

Section Families.
Import ReactQuery Hooks Api HookCalls Router.

(** X15. The family of a query key is the endpoint of its request: for
    every call of a query hook, the first element of the key is the first
    segment of the path that its [queryFn] requests ([alerts], [risks] or
    [regions]).  The two alert mutations post under [/alerts], so the
    queries they invalidate are exactly those served from there. *)
Theorem query_family_is_endpoint :
  (∀ h f, in_family f (queryKey (options h))
          ↔ split (url (queryFn h)) !! 1%nat = Some f) ∧
  (∀ h, ∃ f, f ∈ ["alerts"; "risks"; "regions"] ∧
             in_family f (queryKey (options h))) ∧
  (∀ r, split (url (mutation_request r)) !! 1%nat = Some "alerts").
Proof.
  split; [| split].
  - intros h f. unfold in_family.
    destruct h; cbn -[split String.append].
    all: match goal with
         | |- context [split ?u] =>
             match u with
             | "/alerts" => change (split u) with ["" ; "alerts"]
             | "/alerts/active" => change (split u) with ["" ; "alerts"; "active"]
             | "/risks/summary" => change (split u) with ["" ; "risks"; "summary"]
             | "/risks/map" => change (split u) with ["" ; "risks"; "map"]
             | "/regions" => change (split u) with ["" ; "regions"]
             | "/alerts/" +:+ ?t => change (split u) with ("" :: "alerts" :: split t)
             | "/risks/regions/" +:+ ?t =>
                 change (split u) with ("" :: "risks" :: "regions" :: split t)
             | "/risks/diseases/" +:+ ?t =>
                 change (split u) with ("" :: "risks" :: "diseases" :: split t)
             | "/regions/" +:+ ?t => change (split u) with ("" :: "regions" :: split t)
             end
         end.
    all: cbn; unfold str; split; intros [= <-]; reflexivity.
  - intros h. destruct h;
      [ exists "alerts" | exists "alerts" | exists "alerts"
      | exists "risks" | exists "risks" | exists "risks" | exists "risks"
      | exists "regions" | exists "regions" | exists "regions" ];
      (split; [set_solver | reflexivity]).
  - intros [id notes | id notes flag]; reflexivity.
Qed.

End Families.

(** ** Tables and components *)

Section Getters.
Import Js.

(** Reading a table whose values are not empty. *)
Lemma or_get (table : gmap string string) (k : string) (d : value) :
  map_Forall (λ _ s, s ≠ "") table →
  or (get table k) d
  = match table !! k with
    | Some s => Str s
    | None => if bool_decide (k ∈ object_prototype) then Inherited k else d
    end.
Proof.
  intros Hne. unfold or, get. destruct (table !! k) as [s|] eqn:E.
  - simpl. apply Hne in E. apply String.eqb_neq in E. by rewrite E.
  - by destruct (bool_decide _).
Qed.

End Getters.

Section Hotspots.
Import DiseaseHotspots.


End Hotspots.

Section BreakdownColour.
Import Js RegionDetail.

Lemma RISK_COLORS_nonempty : map_Forall (λ _ s, s ≠ "") RISK_COLORS.
Proof.
  apply map_Forall_to_list. apply (bool_decide_unpack _). by vm_compute.
Qed.

(** X9. The colour of an index of the breakdown in [RegionDetail] is read
    from the table without a fallback, and needs none: for every number,
    NaN and the infinities included, the level computed from it is a key of
    the table, and the colour read is the one [getRiskColor] gives for the
    level of that score.  The colour of the score in the header is read
    the same way from the level the server sent: it is what [getRiskColor]
    returns, except on a level that is neither in the table nor inherited
    from [Object.prototype], where the read is [undefined] and
    [getRiskColor] falls back to the colour of [minimal]. *)
Theorem breakdown_color_defined :
  (∀ value,
     breakdown_color value
       = getRiskColor (KStr (level_name (getRiskLevelFromScore value))) ∧
     ∃ l, breakdown_color value = get RISK_COLORS (level_name l) ∧
          ∃ c, RISK_COLORS !! level_name l = Some c ∧
               breakdown_color value = Str c) ∧
  (∀ risk_level,
     header_color risk_level = getRiskColor risk_level ∨
     header_color risk_level = Undefined ∧
     getRiskColor risk_level = Str "#10B981" ∧
     RISK_COLORS !! toPropertyKey risk_level = None ∧
     toPropertyKey risk_level ∉ object_prototype).
Proof.
  split.
  - intros value. unfold breakdown_color.
    change (indexBreakdown_level value) with (getRiskLevelFromScore value).
    split.
    + by destruct (getRiskLevelFromScore value).
    + exists (getRiskLevelFromScore value). split; [done |].
      destruct (getRiskLevelFromScore value); eexists; split; reflexivity.
  - intros level. unfold header_color, getRiskColor.
    rewrite (or_get _ _ _ RISK_COLORS_nonempty). unfold get.
    destruct (RISK_COLORS !! toPropertyKey level) as [c|] eqn:E; [by left |].
    destruct (bool_decide (toPropertyKey level ∈ object_prototype)) eqn:P;
      [by left |].
    right. apply bool_decide_eq_false in P. done.
Qed.

End BreakdownColour.

Section LevelGetters.
Import Js.

Lemma RISK_BG_COLORS_nonempty : map_Forall (λ _ s, s ≠ "") RISK_BG_COLORS.
Proof.
  apply map_Forall_to_list. apply (bool_decide_unpack _). by vm_compute.
Qed.

Lemma RISK_BG_COLORS_dom : dom RISK_BG_COLORS = dom RISK_COLORS.
Proof. apply (bool_decide_unpack _). by vm_compute. Qed.

Lemma labels_dom : dom labels = dom RISK_COLORS.
Proof. apply (bool_decide_unpack _). by vm_compute. Qed.

Lemma lookup_None_dom (t1 t2 : gmap string string) (k : string) :
  dom t1 = dom t2 → t1 !! k = None → t2 !! k = None.
Proof.
  intros Hd H. apply not_elem_of_dom. rewrite <- Hd. by apply not_elem_of_dom.
Qed.

Lemma level_key (k : string) (c : string) :
  RISK_COLORS !! k = Some c → ∃ l, k = level_name l.
Proof.
  intros H. apply elem_of_dom_2 in H.
  assert (dom RISK_COLORS
          = list_to_set (level_name <$> [minimal; low; moderate; high; critical]))
    as Hd by (apply (bool_decide_unpack _); by vm_compute).
  rewrite Hd in H. apply elem_of_list_to_set, list_elem_of_fmap in H
    as (l & -> & _). by exists l.
Qed.

(** X10. [getRiskColor], [getRiskBgColor] and [getRiskLabel] are in the
    same case on every key: on one of the five levels each returns the
    entry of its table; on a name inherited from [Object.prototype] each
    returns the inherited member; on any other key the two colours fall
    back to those of [minimal] and the label is ['Unknown']. *)
Theorem level_getters_cases (level : key) :
  (∃ l, toPropertyKey level = level_name l ∧
        getRiskColor level = get RISK_COLORS (level_name l) ∧
        getRiskBgColor level = get RISK_BG_COLORS (level_name l) ∧
        getRiskLabel level = get labels (level_name l) ∧
        (∃ c b n, getRiskColor level = Str c ∧ getRiskBgColor level = Str b ∧
                  getRiskLabel level = Str n)) ∨
  ((∀ l, toPropertyKey level ≠ level_name l) ∧
   toPropertyKey level ∈ object_prototype ∧
   getRiskColor level = Inherited (toPropertyKey level) ∧
   getRiskBgColor level = Inherited (toPropertyKey level) ∧
   getRiskLabel level = Inherited (toPropertyKey level)) ∨
  ((∀ l, toPropertyKey level ≠ level_name l) ∧
   (toPropertyKey level ∉ object_prototype) ∧
   getRiskColor level = getRiskColor (KStr "minimal") ∧
   getRiskBgColor level = getRiskBgColor (KStr "minimal") ∧
   getRiskLabel level = Str "Unknown").
Proof.
  unfold getRiskColor, getRiskBgColor, getRiskLabel.
  set (k := toPropertyKey level).
  destruct (RISK_COLORS !! k) as [c|] eqn:E.
  - left. destruct (level_key k c E) as [l Hl]. exists l.
    split; [exact Hl |]. rewrite Hl. clear.
    destruct l; repeat split; try reflexivity; by eexists _, _, _.
  - right.
    assert (∀ l, k ≠ level_name l) as Hno.
    { intros l ->. by destruct l. }
    pose proof (lookup_None_dom _ _ k (eq_sym RISK_BG_COLORS_dom) E) as E1.
    pose proof (lookup_None_dom _ _ k (eq_sym labels_dom) E) as E2.
    unfold get. rewrite E, E1, E2.
    destruct (bool_decide (k ∈ object_prototype)) eqn:P.
    + left. apply bool_decide_eq_true in P.
      split; [exact Hno |]. split; [exact P |]. repeat split.
    + right. apply bool_decide_eq_false in P.
      split; [exact Hno |]. split; [exact P |].
      repeat split; vm_compute; reflexivity.
Qed.

End LevelGetters.

Section Defined.
Import Js.

(** [a || b] is truthy when [b] is. *)
Lemma or_defined (table : gmap string string) (k : string) (d : value) :
  truthy d = true → truthy (or (get table k) d) = true.
Proof.
  intros Hd. unfold or. by destruct (truthy (get table k)) eqn:E.
Qed.

(** X14. None of the five getters of [utils/risk.ts] ever returns
    [undefined] or the empty string, whatever the key: a style or a text
    made from [getRiskColor], [getRiskBgColor], [getRiskLabel],
    [getSeverityColor] or [getDiseaseColor] always has a value. *)
Theorem getters_truthy :
  (∀ level, truthy (getRiskColor level) = true
            ∧ truthy (getRiskBgColor level) = true
            ∧ truthy (getRiskLabel level) = true) ∧
  (∀ severity, truthy (getSeverityColor severity) = true) ∧
  (∀ disease, truthy (getDiseaseColor disease) = true) ∧
  (∀ v, truthy v = true ↔ v ≠ Undefined ∧ v ≠ Str "").
Proof.
  split; [| split; [| split]].
  - intros level. repeat split; by apply or_defined.
  - intros severity. by apply or_defined.
  - intros disease. by apply or_defined.
  - intros v. split.
    + intros H. split; intros ->; discriminate.
    + intros [H1 H2]. destruct v as [| s | n]; [done | | done].
      simpl. apply negb_true_iff, String.eqb_neq. congruence.
Qed.

End Defined.

Section Tint.
Import Js Css.

(** X11. On every key, [getRiskBgColor] returns the colour that
    [getRiskColor] returns, written as [rgba] with opacity 0.2 (and the
    inherited member where [getRiskColor] returns one): the two tables
    hold the same five colours. *)
Theorem getRiskBgColor_tint (level : key) :
  getRiskBgColor level = tint (getRiskColor level).
Proof.
  assert (RISK_BG_COLORS = omap (λ hex, rgba hex "0.2") RISK_COLORS) as Htab.
  { apply map_eq. intros k. rewrite lookup_omap.
    destruct (RISK_COLORS !! k) as [c|] eqn:E.
    - destruct (level_key k c E) as [l ->].
      destruct l; vm_compute in E; injection E as <-; reflexivity.
    - simpl. exact (lookup_None_dom _ _ k (eq_sym RISK_BG_COLORS_dom) E). }
  unfold getRiskBgColor, getRiskColor.
  rewrite (or_get _ _ _ RISK_BG_COLORS_nonempty),
          (or_get _ _ _ RISK_COLORS_nonempty).
  rewrite Htab, lookup_omap.
  destruct (RISK_COLORS !! toPropertyKey level) as [c|] eqn:E; simpl.
  - destruct (level_key _ c E) as [l Hl]. rewrite Hl in E.
    destruct l; vm_compute in E; injection E as <-; reflexivity.
  - by destruct (bool_decide _).
Qed.

End Tint.

(** ** Products and quotients of numbers *)

Module ArithmeticFacts.
Import Binary64 Binary64Facts RoundingFacts.

Lemma canonical_fexp m e :
  canonical m e → e = fexp prec emax (Z.pos (digits2_pos m) + e).
Proof.
  unfold canonical, canonical_mantissa. rewrite Z.eqb_eq. congruence.
Qed.

(** The product of two numbers. *)
Lemma mul_rounds s1 m1 e1 s2 m2 e2 :
  canonical m1 e1 → canonical m2 e2 →
  rounds (F2Q s1 m1 e1 * F2Q s2 m2 e2)
         (SF64mul (S754_finite s1 m1 e1) (S754_finite s2 m2 e2)).
Proof.
  intros C1 C2. unfold SF64mul, SFmul.
  pose proof (canonical_inv _ _ C1) as (He1 & Hd1 & Hn1).
  pose proof (canonical_inv _ _ C2) as (He2 & Hd2 & Hn2).
  pose proof (digits2_pos_bounds m1) as [Dl1 Du1].
  pose proof (digits2_pos_bounds m2) as [Dl2 Du2].
  apply (rounds_intro (xorb s1 s2) (rv (Z.pos m1) e1 * rv (Z.pos m2) e2)).
  - pose proof (sgn_F2Q s1 m1 e1) as H1. pose proof (sgn_F2Q s2 m2 e2) as H2.
    destruct s1, s2; unfold sgn in *; simpl; nra.
  - pose proof (rv_nonneg (Z.pos m1) e1 ltac:(lia)).
    pose proof (rv_nonneg (Z.pos m2) e2 ltac:(lia)). nra.
  - lia.
  - simpl. unfold rv. rewrite Pos2Z.inj_mul, inject_Z_mult.
    rewrite Z.opp_add_distr, !pow2_add.
    pose proof (pow2_cancel e1) as K1. pose proof (pow2_cancel e2) as K2.
    set (a := inject_Z (Z.pos m1)). set (b := inject_Z (Z.pos m2)).
    transitivity (a * b * (pow2 (- e1) * pow2 e1) * (pow2 (- e2) * pow2 e2))%Q;
      [ring |].
    rewrite K1, K2. ring.
  - rewrite fexp_eq.
    set (d1 := Z.pos (digits2_pos m1)) in *.
    set (d2 := Z.pos (digits2_pos m2)) in *.
    assert (d1 + d2 - 1 <= Zdigits2 (Z.pos (m1 * m2))) as Hd.
    { apply Zdigits2_ge; [lia |]. rewrite Pos2Z.inj_mul.
      replace (d1 + d2 - 1 - 1) with ((d1 - 1) + (d2 - 1)) by lia.
      rewrite Z.pow_add_r by lia.
      assert (0 < 2 ^ (d1 - 1)) by (apply Z.pow_pos_nonneg; lia).
      assert (0 < 2 ^ (d2 - 1)) by (apply Z.pow_pos_nonneg; lia). nia. }
    assert (0 < d1 ∧ 0 < d2) as [P1 P2] by (unfold d1, d2; lia).
    destruct (Z.eq_dec e1 (-1074)) as [E1 | E1],
             (Z.eq_dec e2 (-1074)) as [E2 | E2]; lia.
Qed.

(** The quotient of two numbers: the integer division locates the exact
    quotient, with enough digits for the rounding that follows. *)
Lemma div_core_spec m1 e1 m2 e2 :
  canonical m1 e1 → canonical m2 e2 →
  ∃ q e' l,
    SFdiv_core_binary prec emax (Z.pos m1) e1 (Z.pos m2) e2 = (q, e', l) ∧
    0 <= q ∧
    inside (rv (Z.pos m1) e1 / rv (Z.pos m2) e2 * pow2 (- e')) q l ∧
    e' <= fexp prec emax (Zdigits2 q + e').
Proof.
  intros C1 C2.
  pose proof (canonical_inv _ _ C1) as (He1 & Hd1 & Hn1).
  pose proof (canonical_inv _ _ C2) as (He2 & Hd2 & Hn2).
  pose proof (digits2_pos_bounds m1) as [Dl1 Du1].
  pose proof (digits2_pos_bounds m2) as [Dl2 Du2].
  unfold SFdiv_core_binary.
  change (Zdigits2 (Z.pos m1)) with (Z.pos (digits2_pos m1)).
  change (Zdigits2 (Z.pos m2)) with (Z.pos (digits2_pos m2)).
  set (d1 := Z.pos (digits2_pos m1)) in *.
  set (d2 := Z.pos (digits2_pos m2)) in *.
  set (e' := Z.min (fexp prec emax (d1 + e1 - (d2 + e2))) (e1 - e2)).
  assert (e' = Z.min (Z.max (d1 + e1 - (d2 + e2) - 53) (-1074)) (e1 - e2))
    as He' by (unfold e'; rewrite fexp_eq; reflexivity).
  assert (0 <= e1 - e2 - e') as Hs by lia.
  set (m' := match e1 - e2 - e' with
             | 0 => Z.pos m1
             | Z.pos _ => Z.shiftl (Z.pos m1) (e1 - e2 - e')
             | Z.neg _ => 0
             end).
  assert (m' = Z.pos m1 * 2 ^ (e1 - e2 - e')) as Hm'.
  { unfold m'. destruct (e1 - e2 - e') as [| sh | sh] eqn:Hsh; try lia.
    rewrite Z.shiftl_mul_pow2 by lia. reflexivity. }
  clearbody m'.
  pose proof (Z_div_mod m' (Z.pos m2) ltac:(lia)) as Hdiv.
  destruct (Z.div_eucl m' (Z.pos m2)) as [q r].
  destruct Hdiv as [Hqr Hr].
  assert (0 < 2 ^ (e1 - e2 - e')) as Hp by (apply Z.pow_pos_nonneg; lia).
  assert (0 <= q) as Hq by nia.
  exists q, e', (new_location (Z.pos m2) r).
  split; [reflexivity |]. split; [exact Hq |]. split.
  - (* location *)
    set (M := inject_Z (Z.pos m2)).
    assert (0 < M)%Q as HM
      by (unfold M; change 0%Q with (inject_Z 0); rewrite <- Zlt_Qlt; lia).
    assert (rv (Z.pos m1) e1 / rv (Z.pos m2) e2 * pow2 (- e')
            == inject_Z m' / M)%Q as Ht.
    { rewrite Hm', inject_Z_mult, <- (pow2_Z _ Hs).
      replace (e1 - e2 - e') with (e1 + (- e2 + - e')) by lia.
      rewrite !pow2_add.
      assert (pow2 (- e2) == / pow2 e2)%Q as K2
        by (unfold pow2; apply Qpower_opp).
      rewrite K2. unfold rv. fold M.
      pose proof (pow2_pos e2) as P2. field. split; lra. }
    assert (inject_Z m' == M * inject_Z q + inject_Z r)%Q as Hmq.
    { rewrite Hqr, inject_Z_plus, inject_Z_mult. reflexivity. }
    assert (0 <= inject_Z r)%Q as Hr0
      by (change 0%Q with (inject_Z 0); rewrite <- Zle_Qle; lia).
    assert (inject_Z r < M)%Q as HrM by (unfold M; rewrite <- Zlt_Qlt; lia).
    eapply inside_ext; [symmetry; exact Ht |].
    set (t := (inject_Z m' / M)%Q).
    assert (t * M == M * inject_Z q + inject_Z r)%Q as Htm
      by (unfold t; rewrite <- Hmq; field; lra).
    assert (∀ x, (x * M < t * M)%Q → (x < t)%Q) as Lt_l
      by (intros x Hx; nra).
    assert (∀ x, (t * M < x * M)%Q → (t < x)%Q) as Lt_r
      by (intros x Hx; nra).
    assert (∀ x, (t * M == x * M)%Q → (t == x)%Q) as Eq_c.
    { intros x Hx. apply (Qmult_inj_r _ _ M); [lra | exact Hx]. }
    assert (∀ a b : Z, a < b → (inject_Z a < inject_Z b)%Q) as ZQ
      by (intros a b Hab; rewrite <- Zlt_Qlt; exact Hab).
    assert (r = 0 → inside t q loc_Exact) as HE.
    { intros ->. simpl. apply Eq_c.
      change (inject_Z 0) with 0%Q in Htm. lra. }
    assert (2 * r < Z.pos m2 → 0 < r → inside t q (loc_Inexact Lt)) as HL.
    { intros L Hr1. apply ZQ in L, Hr1. rewrite inject_Z_mult in L.
      fold M in L. change (inject_Z 2) with 2%Q in L.
      change (inject_Z 0) with 0%Q in Hr1.
      split; [apply Lt_l | apply Lt_r]; lra. }
    assert (Z.pos m2 < 2 * r → inside t q (loc_Inexact Gt)) as HG.
    { intros G. apply ZQ in G. rewrite inject_Z_mult in G.
      fold M in G. change (inject_Z 2) with 2%Q in G.
      split; [apply Lt_l | apply Lt_r]; lra. }
    unfold new_location.
    destruct (Z.even (Z.pos m2)) eqn:Hev;
      [unfold new_location_even | unfold new_location_odd];
      (destruct (Z.eqb_spec r 0) as [Hr1 | Hr1]; [by apply HE |]).
    + destruct (Z.compare_spec (2 * r) (Z.pos m2)) as [E | L | G].
      * assert (2 * inject_Z r == M)%Q as E'
          by (unfold M; change 2%Q with (inject_Z 2);
              rewrite <- inject_Z_mult, E; reflexivity).
        simpl. apply Eq_c. lra.
      * apply HL; lia.
      * apply HG; lia.
    + assert (2 * r ≠ Z.pos m2) as Hodd.
      { intros E. rewrite <- E, Z.even_mul in Hev. discriminate. }
      destruct (Z.compare_spec (2 * r + 1) (Z.pos m2)) as [E | L | G].
      * apply HL; lia.
      * apply HL; lia.
      * apply HG; lia.
  - (* enough digits in the quotient *)
    rewrite fexp_eq.
    destruct (Z_le_gt_dec e' (-1074)) as [| Hgt]; [lia |].
    assert (e' = d1 + e1 - (d2 + e2) - 53) as He'' by lia.
    assert (e1 - e2 - e' = (d2 - 1) + 1 + (53 - d1)) as Hsh by lia.
    assert (2 ^ 52 * Z.pos m2 <= m') as Hbig.
    { rewrite Hm', Hsh.
      assert (0 <= 53 - d1) by lia.
      rewrite !Z.pow_add_r by lia.
      assert (2 ^ 52 <= Z.pos m1 * 2 ^ (53 - d1)) as H52.
      { replace 52 with ((d1 - 1) + (53 - d1)) by lia.
        rewrite Z.pow_add_r by lia.
        apply Z.mul_le_mono_nonneg_r; [apply Z.pow_nonneg; lia | exact Dl1]. }
      assert (Z.pos m2 < 2 ^ (d2 - 1) * 2 ^ 1) as Hm2.
      { rewrite <- Z.pow_add_r by lia. replace (d2 - 1 + 1) with d2 by lia.
        exact Du2. }
      assert (0 < 2 ^ (d2 - 1)) by (apply Z.pow_pos_nonneg; lia).
      assert (0 < 2 ^ (53 - d1)) by (apply Z.pow_pos_nonneg; lia).
      change (2 ^ 52) with 4503599627370496 in *. nia. }
    assert (2 ^ 52 <= q) as Hq52.
    { change (2 ^ 52) with 4503599627370496 in *. nia. }
    assert (53 <= Zdigits2 q) by (apply Zdigits2_ge; [lia | exact Hq52]).
    lia.
Qed.

Lemma div_rounds s1 m1 e1 s2 m2 e2 :
  canonical m1 e1 → canonical m2 e2 →
  rounds (F2Q s1 m1 e1 / F2Q s2 m2 e2)
         (SF64div (S754_finite s1 m1 e1) (S754_finite s2 m2 e2)).
Proof.
  intros C1 C2. unfold SF64div, SFdiv.
  destruct (div_core_spec m1 e1 m2 e2 C1 C2) as (q & e' & l & -> & Hq & Hin & Hpre).
  pose proof (rv_pos (Z.pos m2) e2 ltac:(lia)) as P2.
  pose proof (rv_nonneg (Z.pos m1) e1 ltac:(lia)) as P1.
  apply (rounds_intro (xorb s1 s2) (rv (Z.pos m1) e1 / rv (Z.pos m2) e2));
    try assumption.
  - pose proof (F2Q_opp_sgn s1 m1 e1) as H1.
    pose proof (F2Q_opp_sgn s2 m2 e2) as H2.
    destruct s1, s2; unfold sgn in *; simpl; rewrite H1, H2; field; lra.
  - unfold Qdiv. apply Qmult_le_0_compat; [exact P1 |].
    apply Qlt_le_weak, Qinv_lt_0_compat, P2.
Qed.

Lemma ltb_value (x y : float) :
  PrimFloat.ltb x y = true ↔ xlt (value x) (value y).
Proof.
  rewrite ltb_spec. unfold SFltb, xlt, value.
  rewrite SFcompare_value by apply Prim2SF_valid.
  destruct (xcompare _ _) as [[ | | ] | ]; intuition discriminate.
Qed.

Lemma c100_rounds : rounds 100 c100.
Proof.
  exists false, 7036874417766400, (-46), loc_Exact. unfold sgn.
  split; [discriminate |]. split; [unfold normal_at; lia |].
  split; reflexivity.
Qed.

Lemma one_rounds : rounds 1 (S754_finite false 4503599627370496 (-52)).
Proof.
  exists false, (2 ^ 52), (-52), loc_Exact. unfold sgn.
  split; [discriminate |]. split; [unfold normal_at; lia |].
  split; reflexivity.
Qed.

(** The quotient by a number that is finite and not zero. *)
Lemma div_stage_fin x X s m e :
  valid_binary x = true → fin_value x = Some X → canonical m e →
  rounds (X / F2Q s m e) (SF64div x (S754_finite s m e)).
Proof.
  intros Hv HX Hc. destruct x as [sx | sx | | sx mx ex]; try discriminate.
  - injection HX as <-. apply (rounds_ext 0); [unfold Qdiv; ring |].
    apply rounds_zero.
  - injection HX as <-. apply div_rounds; [| exact Hc].
    exact (valid_canonical _ _ _ Hv).
Qed.

Lemma mul100_stage_fin x X :
  valid_binary x = true → fin_value x = Some X →
  rounds (X * 100) (SF64mul x c100).
Proof.
  intros Hv HX. destruct x as [sx | sx | | sx mx ex]; try discriminate.
  - injection HX as <-. apply (rounds_ext 0); [ring |].
    replace (SF64mul (S754_zero sx) c100) with (S754_zero sx)
      by (destruct sx; reflexivity).
    apply rounds_zero.
  - injection HX as <-.
    apply (rounds_ext (F2Q sx mx ex * F2Q false 7036874417766400 (-46))).
    + apply Qmult_comp; [reflexivity |]. reflexivity.
    + apply mul_rounds; [exact (valid_canonical _ _ _ Hv) | reflexivity].
Qed.

(** A rounding between two numbers that are exact. *)
Lemma rounds_between v r lo hi (a b : spec_float) qa qb :
  rounds v r → rounds lo a → rounds hi b →
  SF2X a = XFin qa → SF2X b = XFin qb →
  (lo <= v <= hi)%Q →
  ∃ q, SF2X r = XFin q ∧ (qa <= q <= qb)%Q.
Proof.
  intros Hr Ha Hb Ea Eb [Hl Hu].
  pose proof (rounds_mono _ _ _ _ Ha Hr Hl) as L.
  pose proof (rounds_mono _ _ _ _ Hr Hb Hu) as U.
  rewrite Ea in L. rewrite Eb in U.
  destruct (SF2X r) as [| [] | q]; try contradiction.
  exists q. split; [reflexivity |]. split; by apply xle_fin.
Qed.

End ArithmeticFacts.

Section SummaryCard.
Import Binary64 Binary64Facts RoundingFacts ArithmeticFacts RiskSummaryCard.

Lemma Prim2SF_percentage (count total : number) :
  lt 0%float total = true →
  Prim2SF (percentage count total)
  = SF64mul (SF64div (Prim2SF count) (Prim2SF total)) c100.
Proof.
  intros H. unfold percentage. rewrite H, mul_spec, div_spec. reflexivity.
Qed.

(** The share on exact values. *)
Lemma percentage_exact (count total : number) (C T : Q) :
  value count = XFin C → value total = XFin T →
  (0 <= C <= T)%Q → (0 < T)%Q →
  ∃ q, value (percentage count total) = XFin q ∧
       (0 <= q <= 100)%Q ∧
       (C / T * 100 - pow2 (-45) <= q <= C / T * 100 + pow2 (-45))%Q.
Proof.
  intros HC HT [C0 CT] T0.
  assert (lt 0%float total = true) as Hlt.
  { unfold lt. apply ltb_value. rewrite HT. by apply xlt_fin. }
  unfold value in *. rewrite (Prim2SF_percentage _ _ Hlt).
  pose proof (Prim2SF_valid count) as Vx. pose proof (Prim2SF_valid total) as Vy.
  set (x := Prim2SF count) in *. set (y := Prim2SF total) in *.
  apply SF2X_fin_value in HC.
  destruct y as [sy | sy | | sy my ey]; try discriminate.
  { injection HT as <-. lra. }
  injection HT as HT.
  assert (0 <= C / T <= 1)%Q as [Q0 Q1].
  { split.
    - apply Qle_shift_div_l; [exact T0 | lra].
    - apply Qle_shift_div_r; [exact T0 | lra]. }
  (* the quotient *)
  pose proof (div_stage_fin x C sy my ey Vx HC (valid_canonical _ _ _ Vy)) as Ra.
  rewrite HT in Ra.
  destruct (rounds_between _ _ 0 1 _ _ _ _ Ra (rounds_zero false) one_rounds
              eq_refl eq_refl (conj Q0 Q1)) as (A & HA & A0 & A1).
  assert (F2Q false 4503599627370496 (-52) == 1)%Q as E1 by reflexivity.
  rewrite E1 in A1.
  destruct (rounds_error _ _ 0 Ra ltac:(lia)) as (A' & HA' & Al & Au).
  { change (pow2 0) with 1%Q. lra. }
  rewrite HA in HA'. injection HA' as <-.
  pose proof (rounds_valid _ _ Ra) as Va. apply SF2X_fin_value in HA.
  (* the product *)
  pose proof (mul100_stage_fin _ A Va HA) as Rb.
  destruct (rounds_between _ _ 0 100 _ _ _ _ Rb (rounds_zero false)
              c100_rounds eq_refl eq_refl ltac:(lra)) as (B & HB & B0 & B1).
  assert (F2Q false 7036874417766400 (-46) == 100)%Q as E100 by reflexivity.
  rewrite E100 in B1.
  destruct (rounds_error _ _ 7 Rb ltac:(lia)) as (B' & HB' & Bl & Bu).
  { change (pow2 7) with 128%Q. lra. }
  rewrite HB in HB'. injection HB' as <-.
  exists B. split; [exact HB |]. split; [lra |].
  change (pow2 (0 - 53)) with (1 # 9007199254740992)%Q in Al, Au.
  change (pow2 (7 - 53)) with (1 # 70368744177664)%Q in Bl, Bu.
  change (pow2 (-45)) with (1 # 35184372088832)%Q. lra.
Qed.

(** X12. The share of a level in [RiskSummaryCard] is 0 whenever
    [total > 0] is false (zero, negative or NaN), so no division by zero
    is shown.  When the count and the total are finite with
    [0 <= count <= total] and [0 < total], the share is a finite number
    between 0 and 100, within [2^-45] of the exact [100 * count / total];
    in the comparisons of the numbers themselves, [0 <= count <= total]
    with a finite total gives [0 <= share <= 100]. *)
Theorem percentage_bounds (count total : number) :
  (lt 0%float total = false → percentage count total = 0%float) ∧
  (∀ C T, value count = XFin C → value total = XFin T →
     (0 <= C <= T)%Q → (0 < T)%Q →
     ∃ q, value (percentage count total) = XFin q ∧
          (0 <= q <= 100)%Q ∧
          (C / T * 100 - pow2 (-45) <= q <= C / T * 100 + pow2 (-45))%Q) ∧
  (le 0%float count = true → le count total = true →
   lt total infinity = true →
   le 0%float (percentage count total) = true ∧
   le (percentage count total) 100%float = true).
Proof.
  split; [| split].
  - intros H. unfold percentage. by rewrite H.
  - apply percentage_exact.
  - intros H0 H1 H2. destruct (lt 0%float total) eqn:Hlt.
    2: { unfold percentage. rewrite Hlt. split; reflexivity. }
    unfold lt in Hlt, H2. unfold le in H0, H1.
    apply ltb_value in Hlt, H2. apply leb_value in H0, H1.
    change (value 0%float) with (XFin 0) in Hlt, H0.
    change (value infinity) with (XInf false) in H2.
    destruct (value total) as [| [] | T] eqn:ET; try contradiction.
    destruct (value count) as [| [] | C] eqn:EC; try contradiction.
    apply xlt_fin in Hlt. apply xle_fin in H0, H1.
    destruct (percentage_exact count total C T EC ET (conj H0 H1) Hlt)
      as (q & Eq & [Q0 Q100] & _).
    unfold le. rewrite !leb_value, Eq.
    change (value 0%float) with (XFin 0).
    assert (∃ h, value 100%float = XFin h ∧ (h == 100)%Q) as (h & -> & Eh)
      by (eexists; split; vm_compute; reflexivity).
    rewrite !xle_fin, Eh. done.
Qed.

End SummaryCard.

Section SummaryCardOrder.
Import Binary64 Binary64Facts RoundingFacts ArithmeticFacts RiskSummaryCard.

Lemma mul100_stage_inf s : SF64mul (S754_infinity s) c100 = S754_infinity s.
Proof. destruct s; reflexivity. Qed.

Lemma div_stage_inf s m e :
  SF64div (S754_infinity s) (S754_finite false m e) = S754_infinity s.
Proof. destruct s; reflexivity. Qed.

(** X16. For a total that is positive and finite, the share does not
    decrease when the count increases, on all numbers: the bars of
    [RiskSummaryCard] are ordered like the counts. *)
Theorem percentage_monotone (count1 count2 total : number) :
  lt 0%float total = true → lt total infinity = true →
  le count1 count2 = true →
  le (percentage count1 total) (percentage count2 total) = true.
Proof.
  intros Hpos Hfin Hle. unfold le in *. rewrite leb_value in *.
  unfold value in *. rewrite !(Prim2SF_percentage _ _ Hpos).
  unfold lt in Hpos, Hfin. apply ltb_value in Hpos, Hfin. unfold value in *.
  change (SF2X (Prim2SF 0%float)) with (XFin 0) in Hpos.
  change (SF2X (Prim2SF infinity)) with (XInf false) in Hfin.
  pose proof (Prim2SF_valid count1) as V1.
  pose proof (Prim2SF_valid count2) as V2.
  pose proof (Prim2SF_valid total) as Vt.
  set (x1 := Prim2SF count1) in *. set (x2 := Prim2SF count2) in *.
  destruct (Prim2SF total) as [st | [] | | st mt et]; try contradiction.
  apply xlt_fin in Hpos.
  destruct st.
  { pose proof (F2Q_neg mt et). lra. }
  pose proof (valid_canonical _ _ _ Vt) as Ct.
  assert (xle (SF2X x1) (SF2X x1) ∧ xle (SF2X x2) (SF2X x2)) as [N1 N2].
  { destruct (SF2X x1) as [| [] |], (SF2X x2) as [| [] |];
      try contradiction; split; try exact I; apply xle_fin, Qle_refl. }
  set (T := F2Q false mt et) in *.
  set (g := λ x, SF64div x (S754_finite false mt et)).
  assert (∀ a b, (a <= b)%Q → (a / T <= b / T)%Q) as Dmono.
  { intros a b Hab. unfold Qdiv. apply Qmult_le_compat_r; [exact Hab |].
    apply Qlt_le_weak, Qinv_lt_0_compat, Hpos. }
  assert (∀ s, g (S754_infinity s) = S754_infinity s) as Dinf
    by (intros s; apply div_stage_inf).
  assert (∀ x X, valid_binary x = true → fin_value x = Some X →
                 rounds (X / T) (g x)) as Dfin.
  { intros x X Hv HX. exact (div_stage_fin x X false mt et Hv HX Ct). }
  pose proof (stage_mono g (λ X, X / T)%Q Dmono Dinf Dfin x1 x2 V1 V2 Hle) as Dm.
  destruct (stage_number g (λ X, X / T)%Q Dinf Dfin x1 V1 N1) as [Va1 _].
  destruct (stage_number g (λ X, X / T)%Q Dinf Dfin x2 V2 N2) as [Va2 _].
  exact (stage_mono (λ x, SF64mul x c100) (λ X, X * 100)%Q
           ltac:(intros a b H; cbv beta; lra) mul100_stage_inf mul100_stage_fin
           _ _ Va1 Va2 Dm).
Qed.

Lemma percentage_monotone_witness :
  le (percentage 3%float 7%float) (percentage 4%float 7%float) = true.
Proof. apply percentage_monotone; reflexivity. Defined.

End SummaryCardOrder.

(** ** Displayed scores *)

Section Format.
Import Binary64 Binary64Facts NumberFormat.

Example formatRiskScore_50 : formatRiskScore 50%float = Text "50.0".
Proof. vm_compute. reflexivity. Qed.

Example formatRiskScore_7 : formatRiskScore 0x1.ccccccccccccdp+2%float = Text "7.2".
Proof. vm_compute. reflexivity. Qed.

Example formatRiskScore_tie : formatRiskScore 0.25%float = Text "0.3".
Proof. vm_compute. reflexivity. Qed.

Example formatRiskScore_neg : formatRiskScore (-0x1.47ae147ae147bp-7)%float = Text "-0.0".
Proof. vm_compute. reflexivity. Qed.

Example formatRiskScore_nan : formatRiskScore nan = Text "NaN".
Proof. vm_compute. reflexivity. Qed.

Lemma tenths_ge (c : Z) (X : Q) :
  (inject_Z c <= X)%Q → 10 * c <= tenths X.
Proof.
  intros H. unfold tenths. rewrite <- (Qfloor_Z (10 * c)).
  apply Qfloor_resp_le. rewrite inject_Z_mult.
  change (inject_Z 10) with 10%Q. lra.
Qed.

Lemma tenths_le (c : Z) (X : Q) :
  (X < inject_Z c)%Q → tenths X <= 10 * c.
Proof.
  intros H. unfold tenths.
  pose proof (Qfloor_le (10 * X + (1 # 2))) as F.
  assert (inject_Z (Qfloor (10 * X + (1 # 2))) < inject_Z (10 * c + 1))%Q as L.
  { rewrite inject_Z_plus, inject_Z_mult.
    change (inject_Z 10) with 10%Q. change (inject_Z 1) with 1%Q. lra. }
  rewrite <- Zlt_Qlt in L. lia.
Qed.

Lemma tenths_nearest (X : Q) :
  (inject_Z (tenths X) / 10 - (1 # 20) <= X
   ∧ X < inject_Z (tenths X) / 10 + (1 # 20))%Q.
Proof.
  unfold tenths.
  pose proof (Qfloor_le (10 * X + (1 # 2))) as F.
  pose proof (Qlt_floor (10 * X + (1 # 2))) as G.
  rewrite inject_Z_plus in G. change (inject_Z 1) with 1%Q in G.
  unfold Qdiv. change (/ 10)%Q with (1 # 10)%Q. split; lra.
Qed.

(** X13. For a score from 0 up to [10^21], [formatRiskScore] prints the
    number of tenths nearest to the exact value of the score (the larger
    one of two), with one decimal.  Next to the level computed from the
    same score, as in the breakdown of [RegionDetail], the number shown is
    at least the threshold of the level and at most the next threshold:
    it can reach the next threshold, since 79.95 is shown as 80.0 at
    level [high], like 80, which is [critical]. *)
Theorem formatRiskScore_band :
  (∀ x : number,
     le 0%float x = true → lt x 0x1.b1ae4d6e2ef5p+69%float = true →
     ∃ X n,
       value x = XFin X ∧
       formatRiskScore x = Text (point1 n) ∧
       (inject_Z n / 10 - (1 # 20) <= X ∧ X < inject_Z n / 10 + (1 # 20))%Q ∧
       (band_tenths (indexBreakdown_level x)).1 <= n ∧
       (∀ u, (band_tenths (indexBreakdown_level x)).2 = Some u → n <= u)) ∧
  formatRiskScore 80%float = Text "80.0" ∧
  indexBreakdown_level 80%float = critical ∧
  formatRiskScore 0x1.3fccccccccccdp+6%float = Text "80.0" ∧
  indexBreakdown_level 0x1.3fccccccccccdp+6%float = high.
Proof.
  split; [| repeat split; vm_compute; reflexivity].
  intros x H0 H1. unfold le in H0. unfold lt in H1.
  apply leb_value in H0. apply ArithmeticFacts.ltb_value in H1.
  pose proof (ge_cases _ x _ denotes_80) as H80.
  pose proof (ge_cases _ x _ denotes_60) as H60.
  pose proof (ge_cases _ x _ denotes_40) as H40.
  pose proof (ge_cases _ x _ denotes_20) as H20.
  unfold formatRiskScore, toFixed1, indexBreakdown_level.
  destruct (value x) as [| [] | X]; try contradiction.
  change (value 0%float) with (XFin 0) in H0. apply xle_fin in H0.
  assert (X < 10 ^ 21)%Q as Hlt.
  { assert (∃ q, value 0x1.b1ae4d6e2ef5p+69%float = XFin q ∧ (q == 10 ^ 21)%Q)
      as (q & E & E') by (eexists; split; vm_compute; reflexivity).
    rewrite E in H1. apply xlt_fin in H1. rewrite <- E'. exact H1. }
  exists X, (tenths X).
  cbv zeta.
  assert (Qle_bool 0 X = true) as -> by (by apply Qle_bool_iff).
  change (negb true) with false. cbv iota.
  assert (Qle_bool (10 ^ 21) X = false) as ->.
  { destruct (Qle_bool (10 ^ 21) X) eqn:E; [| done].
    apply Qle_bool_iff in E. lra. }
  split; [done |]. split; [done |]. split; [apply tenths_nearest |].
  pose proof (tenths_ge 0 X H0) as T0.
  destruct (ge x 80%float) eqn:G80.
  { apply proj1 in H80. specialize (H80 eq_refl).
    split; [exact (tenths_ge 80 X H80) | discriminate]. }
  assert (X < 80)%Q as L80.
  { apply Qnot_le_lt. intros C. apply H80 in C. discriminate. }
  destruct (ge x 60%float) eqn:G60.
  { apply proj1 in H60. specialize (H60 eq_refl).
    split; [exact (tenths_ge 60 X H60) |].
    intros u [= <-]. exact (tenths_le 80 X L80). }
  assert (X < 60)%Q as L60.
  { apply Qnot_le_lt. intros C. apply H60 in C. discriminate. }
  destruct (ge x 40%float) eqn:G40.
  { apply proj1 in H40. specialize (H40 eq_refl).
    split; [exact (tenths_ge 40 X H40) |].
    intros u [= <-]. exact (tenths_le 60 X L60). }
  assert (X < 40)%Q as L40.
  { apply Qnot_le_lt. intros C. apply H40 in C. discriminate. }
  destruct (ge x 20%float) eqn:G20.
  { apply proj1 in H20. specialize (H20 eq_refl).
    split; [exact (tenths_ge 20 X H20) |].
    intros u [= <-]. exact (tenths_le 40 X L40). }
  assert (X < 20)%Q as L20.
  { apply Qnot_le_lt. intros C. apply H20 in C. discriminate. }
  split; [exact T0 |].
  intros u [= <-]. exact (tenths_le 20 X L20).
Qed.

End Format.
